(** * The OFAC name-matching engine (backend/nlp_utils.py)

    A shallow embedding of the normalizer, the tokenizer, the index builder,
    the blocking retriever, the two lookups and the deduplicator, followed by
    the properties the specification states about them.

    Conventions.
    - A Python [str] is a list of Unicode code points ([N]).
    - A Python [set] is a [gset], a [dict] a [gmap].  Python leaves the
      iteration order of a set unspecified; the two places where the code
      iterates over a set take the order as a parameter ([iter_tokens],
      [iter_ids]).
    - [str.upper], [unicodedata.normalize], [unicodedata.combining] and the two
      rapidfuzz scorers are library code: they are parameters of the
      development.  What is assumed about them is stated where it is used.
    - Scores are Python floats in the source; here they are exact rationals.
    - [items[cid]] raises [IndexError] when [cid] is out of range: the lookups
      return in [exc]. *)

From Stdlib Require Import QArith Qround Lqa.
From stdpp Require Import gmap strings list sorting.

Abbreviation str := (list N).

(** ** Strings *)

Definition SPACE : N := 32%N.
Definition ENYE : N := 209%N.   (* U+00D1, the precomposed capital N with tilde *)
Definition BAR : N := 124%N.    (* "|" *)

(** An ASCII literal as a Python string. *)
Fixpoint lit (s : string) : str :=
  match s with
  | EmptyString => []
  | String a s' => Ascii.N_of_ascii a :: lit s'
  end.

Definition is_AZ (c : N) : bool := ((65 <=? c) && (c <=? 90))%N.

(** The character class [[A-ZÑ ]] of the first substitution. *)
Definition in_name_class (c : N) : bool :=
  is_AZ c || (c =? ENYE)%N || (c =? SPACE)%N.

(** The characters matched by [\s] in a [str] pattern, which are also the ones
    [str.strip()] removes. *)
Definition is_space (c : N) : bool :=
  (((9 <=? c) && (c <=? 13)) || ((28 <=? c) && (c <=? 32))
   || (c =? 133) || (c =? 160) || (c =? 5760)
   || ((8192 <=? c) && (c <=? 8202))
   || (c =? 8232) || (c =? 8233) || (c =? 8239) || (c =? 8287)
   || (c =? 12288))%N.

(** [re.sub(r"[^A-ZÑ ]", " ", s)] *)
Definition sub_outside_class (s : str) : str :=
  (λ c, if in_name_class c then c else SPACE) <$> s.

(** [re.sub(r"\s+", " ", s)]: every maximal run of white space becomes one
    space.  [in_run] tells that the previous character was white space. *)
Fixpoint sub_space_runs (in_run : bool) (s : str) : str :=
  match s with
  | [] => []
  | c :: s' =>
      if is_space c
      then (if in_run then sub_space_runs true s'
            else SPACE :: sub_space_runs true s')
      else c :: sub_space_runs false s'
  end.

Fixpoint lstrip (s : str) : str :=
  match s with
  | [] => []
  | c :: s' => if is_space c then lstrip s' else s
  end.

Fixpoint rstrip (s : str) : str :=
  match s with
  | [] => []
  | c :: s' =>
      match rstrip s' with
      | [] => if is_space c then [] else [c]
      | r => c :: r
      end
  end.

Definition strip (s : str) : str := rstrip (lstrip s).

(** [s.split(sep)] for a one-character separator: never returns the empty
    list, and two adjacent separators delimit an empty string. *)
Fixpoint split (sep : N) (s : str) : list str :=
  match s with
  | [] => [[]]
  | c :: s' =>
      if (c =? sep)%N then [] :: split sep s'
      else match split sep s' with
           | w :: ws => (c :: w) :: ws
           | [] => [[c]]
           end
  end.

(** Python compares strings code point by code point. *)
Fixpoint str_leb (a b : str) : bool :=
  match a, b with
  | [], _ => true
  | _ :: _, [] => false
  | x :: a', y :: b' => (x <? y)%N || ((x =? y)%N && str_leb a' b')
  end.

(** A canonical form as the specification describes it: capital letters A to
    Z in words separated by one space, no space at either end. *)
Definition letter_or_space (c : N) : Prop := is_AZ c = true ∨ c = SPACE.

Fixpoint single_spaced (s : str) : Prop :=
  match s with
  | c1 :: (c2 :: _) as s' => ¬ (c1 = SPACE ∧ c2 = SPACE) ∧ single_spaced s'
  | _ => True
  end.

Definition canonical (s : str) : Prop :=
  Forall letter_or_space s
  ∧ head s ≠ Some SPACE
  ∧ last s ≠ Some SPACE
  ∧ single_spaced s.

(** ** Configuration *)

Definition _ENTITY_STOPWORDS : gset str :=
  list_to_set (lit <$>
    [ "COMPANY"; "CO"; "CORP"; "CORPORATION"; "INC"; "INCORPORATED"; "LLC";
      "LTD"; "LIMITED";
      "S"; "A"; "SA"; "SAS"; "S.A"; "S.A."; "S A"; "AG"; "GMBH"; "BV"; "NV";
      "SPA"; "SRL"; "SRO";
      "BANK"; "BANCO"; "TRUST"; "HOLDINGS"; "HOLDING"; "GROUP"; "GRUPO";
      "FUND"; "FOUNDATION" ]%string).

(** ** Data model *)

(** A reference entry, with the keys [ofac.parse_sdn_xml] gives it. *)
Record Entry := mkEntry {
  uid : option str;
  name : option str;
  type : option str;
  remarks : option str
}.

Record Item := mkItem {
  norm : str;
  tokens : list str;
  token_set : gset str;
  is_entity : bool;
  entry : Entry
}.

Record Index := mkIndex {
  items : list Item;
  token_to_ids : gmap str (gset nat);
  names : list str;
  mp : gmap str Entry           (* the key "map" of the index *)
}.

(** What every [.get(key, default) or default] of the lookups sees when the
    index is the empty dict. *)
Definition empty_index : Index :=
  {| items := []; token_to_ids := ∅; names := []; mp := ∅ |}.

(** A match as the lookups return it: [(name, score, entry)]. *)
Definition Match : Type := str * Q * Entry.

Inductive exc (A : Type) : Type :=
  | Ok (a : A)
  | IndexError.
Arguments Ok {A} a.
Arguments IndexError {A}.

Definition exc_bind {A B} (m : exc A) (f : A → exc B) : exc B :=
  match m with
  | Ok a => f a
  | IndexError => IndexError
  end.

(** ** Numbers *)

Definition Qleb (x y : Q) : bool := Qle_bool x y.
Definition Qltb (x y : Q) : bool := negb (Qle_bool y x).

(** [round(x, 1)]: the nearest multiple of one tenth, a tie going to the even
    one. *)
Definition round_half_even (x : Q) : Z :=
  let f := Qfloor x in
  let r := (x - inject_Z f)%Q in
  match (r ?= 1 # 2)%Q with
  | Lt => f
  | Gt => (f + 1)%Z
  | Eq => if Z.even f then f else (f + 1)%Z
  end.

Definition round1 (x : Q) : Q := (round_half_even (x * 10)%Q # 10)%Q.

(** A stable sort by insertion: Python's [list.sort] is stable. *)
Section StableSort.
Context {A : Type} (leb : A → A → bool).

Fixpoint insert_sorted (x : A) (l : list A) : list A :=
  match l with
  | [] => [x]
  | y :: l' => if leb y x then y :: insert_sorted x l' else x :: l
  end.

Definition stable_sort (l : list A) : list A :=
  foldl (λ acc x, insert_sorted x acc) [] l.
End StableSort.

(** ** The platform: library functions and iteration orders *)

Class Platform := {
  (** [str.upper] *)
  str_upper : str → str;
  (** [unicodedata.normalize("NFKD", ·)] *)
  nfkd : str → str;
  (** [unicodedata.combining]: the canonical combining class *)
  combining : N → N;
  (** [fuzz.WRatio] and [fuzz.token_set_ratio] *)
  WRatio : str → str → Q;
  token_set_ratio : str → str → Q;
  (** The order in which a [for] loop, or [list(...)], visits a set. *)
  iter_tokens : gset str → list str;
  iter_ids : gset nat → list nat
}.

Section Engine.
Context `{Platform}.

(** *** Normalizer *)

Definition _strip_accents (s : str) : str :=
  filter (λ ch, combining ch = 0%N) (nfkd s).

Definition normalize_name (s : str) : str :=
  let s := str_upper s in
  let s := _strip_accents s in
  let s := sub_outside_class s in
  strip (sub_space_runs false s).

(** *** Tokenizer and classifier *)

Definition tokenize_name (norm : str) : list str :=
  filter (λ t, 2 ≤ length t) (split SPACE norm).

Definition looks_like_entity (tokens : list str) : bool :=
  match tokens with
  | [] => false
  | _ =>
      let hit := length (filter (λ t, t ∈ _ENTITY_STOPWORDS) tokens) in
      bool_decide (1 ≤ hit)
  end.

(** *** Index builder *)

(** [token_to_ids.setdefault(t, set()).add(idx)] *)
Definition add_posting (t : str) (idx : nat)
    (m : gmap str (gset nat)) : gmap str (gset nat) :=
  <[t := default ∅ (m !! t) ∪ {[idx]}]> m.

(** [mp.setdefault(norm, e)] *)
Definition setdefault (k : str) (e : Entry) (m : gmap str Entry) : gmap str Entry :=
  match m !! k with
  | Some _ => m
  | None => <[k := e]> m
  end.

(** The body of the inner loop, over the tokens of one item. *)
Definition post_token (idx : nat) (m : gmap str (gset nat)) (t : str)
    : gmap str (gset nat) :=
  if bool_decide (length t < 3) then m else add_posting t idx m.

(** The body of the loop over the entries. *)
Definition index_entry (st : Index) (e : Entry) : Index :=
  let raw := default [] (name e) in
  let norm := normalize_name raw in
  if bool_decide (norm = []) then st else
  let toks := tokenize_name norm in
  if bool_decide (toks = []) then st else
  let is_ent := looks_like_entity toks in
  let idx := length (items st) in
  {| items := items st ++
       [ {| norm := norm; tokens := toks; token_set := list_to_set toks;
            is_entity := is_ent; entry := e |} ];
     token_to_ids :=
       foldl (post_token idx) (token_to_ids st) (iter_tokens (list_to_set toks));
     names := names st ++ [norm];
     mp := setdefault norm e (mp st) |}.

Definition build_ofac_name_index (ofac_entries : list Entry) : Index :=
  foldl index_entry empty_index ofac_entries.

(** *** Candidate retriever (blocking) *)

(** The first loop of [_candidate_ids_for_query]: the non-empty posting sets
    of the query tokens of length at least 3, in the order the tokens are
    visited. *)
Definition query_postings (token_to_ids : gmap str (gset nat))
    (q_tokens : list str) : list (gset nat) :=
  foldl (λ postings t,
           if bool_decide (length t < 3) then postings else
           match token_to_ids !! t with
           | Some ids => if bool_decide (ids = ∅) then postings
                         else postings ++ [ids]
           | None => postings
           end)
        [] (iter_tokens (list_to_set q_tokens)).

(** The second loop: intersect while the intersection is not empty, take the
    union otherwise, and leave the loop once the pool exceeds [max_pool]. *)
Fixpoint narrow_pool (max_pool : Z) (pool : gset nat)
    (postings : list (gset nat)) : gset nat :=
  match postings with
  | [] => pool
  | ids :: rest =>
      let inter := pool ∩ ids in
      let pool := if bool_decide (inter = ∅) then pool ∪ ids else inter in
      if bool_decide (max_pool < Z.of_nat (size pool))%Z then pool
      else narrow_pool max_pool pool rest
  end.

Definition _candidate_ids_for_query (q_tokens : list str)
    (ofac_index : Index) (max_pool : Z) : list nat :=
  let postings := query_postings (token_to_ids ofac_index) q_tokens in
  match postings with
  | [] => []
  | _ =>
      match stable_sort (λ a b, bool_decide (size a ≤ size b)) postings with
      | [] => []
      | p0 :: rest => iter_ids (narrow_pool max_pool p0 rest)
      end
  end.

(** *** Composite scorer *)

(** The Jaccard term. *)
Definition jaccard (overlap : nat) (q_set c_set : gset str) : Q :=
  (100 * (inject_Z (Z.of_nat overlap)
          / inject_Z (Z.of_nat (Nat.max 1 (size (q_set ∪ c_set))))))%Q.

(** The score of a candidate that passed the overlap gate; the same lines
    appear in [fuzzy_match] and in [fuzzy_top_matches]. *)
Definition composite_score (q : str) (q_set : gset str) (q_is_entity : bool)
    (it : Item) (overlap : nat) : Q :=
  let s1 := WRatio q (norm it) in
  let s2 := token_set_ratio q (norm it) in
  let j := jaccard overlap q_set (token_set it) in
  let score := ((55 # 100) * s1 + (30 # 100) * s2 + (15 # 100) * j)%Q in
  let score := if negb q_is_entity && is_entity it then (score - 8)%Q else score in
  if bool_decide (q_set ⊆ token_set it) then (score + 3)%Q else score.

(** The two hard rules at the head of the candidate loops: [true] when the
    candidate is skipped. *)
Definition gate_rejects (q_set : gset str) (overlap : nat) : bool :=
  bool_decide (overlap < 2)
  || (bool_decide (size q_set = 2) && bool_decide (overlap < 2)).

(** *** Best match *)

(** The candidate loop of [fuzzy_match]; [best] is [(score, norm, entry)]. *)
Fixpoint best_loop (q : str) (q_set : gset str) (q_is_entity : bool)
    (items : list Item) (cand_ids : list nat)
    (best : option (Q * str * Entry)) : exc (option (Q * str * Entry)) :=
  match cand_ids with
  | [] => Ok best
  | cid :: rest =>
      match items !! cid with
      | None => IndexError
      | Some it =>
          let overlap := size (q_set ∩ token_set it) in
          if gate_rejects q_set overlap
          then best_loop q q_set q_is_entity items rest best
          else
            let score := composite_score q q_set q_is_entity it overlap in
            let better :=
              match best with
              | None => true
              | Some (b, _, _) => Qltb b score
              end in
            best_loop q q_set q_is_entity items rest
              (if better then Some (score, norm it, entry it) else best)
      end
  end.

Definition fuzzy_match (name : str) (ofac_index : Index) (min_score : Q)
    : exc (option Match) :=
  let q := normalize_name name in
  if bool_decide (q = []) then Ok None else
  match mp ofac_index !! q with
  | Some e => Ok (Some (q, 100%Q, e))
  | None =>
      let q_tokens := tokenize_name q in
      if bool_decide (length q_tokens < 2) then Ok None else
      let q_is_entity := looks_like_entity q_tokens in
      let cand_ids := _candidate_ids_for_query q_tokens ofac_index 5000 in
      if bool_decide (cand_ids = []) then Ok None else
      let q_set : gset str := list_to_set q_tokens in
      exc_bind
        (best_loop q q_set q_is_entity (items ofac_index) cand_ids None)
        (λ best,
           match best with
           | None => Ok None
           | Some (score, best_name, entry) =>
               if Qleb min_score score
               then Ok (Some (best_name, round1 score, entry))
               else Ok None
           end)
  end.

(** *** Ranked matches *)

(** The candidate loop of [fuzzy_top_matches]; [scored] is the list being
    appended to. *)
Fixpoint scored_loop (q : str) (q_set : gset str) (q_is_entity : bool)
    (min_score : Q) (items : list Item) (cand_ids : list nat)
    (scored : list Match) : exc (list Match) :=
  match cand_ids with
  | [] => Ok scored
  | cid :: rest =>
      match items !! cid with
      | None => IndexError
      | Some it =>
          let overlap := size (q_set ∩ token_set it) in
          if gate_rejects q_set overlap
          then scored_loop q q_set q_is_entity min_score items rest scored
          else
            let score := composite_score q q_set q_is_entity it overlap in
            scored_loop q q_set q_is_entity min_score items rest
              (if Qleb min_score score
               then scored ++ [(norm it, round1 score, entry it)]
               else scored)
      end
  end.

(** The sort key [(-x[1], x[0])]: [rank_leb x y] is [key x <= key y]. *)
Definition rank_leb (x y : Match) : bool :=
  Qltb (y.1.2) (x.1.2)
  || (Qeq_bool (x.1.2) (y.1.2) && str_leb (x.1.1) (y.1.1)).

Definition fuzzy_top_matches (name : str) (ofac_index : Index) (top_k : Z)
    (min_score : Q) : exc (list Match) :=
  let q := normalize_name name in
  let q_tokens := tokenize_name q in
  if bool_decide (q = []) || bool_decide (length q_tokens < 2) then Ok [] else
  let q_is_entity := looks_like_entity q_tokens in
  let q_set : gset str := list_to_set q_tokens in
  let cand_ids := _candidate_ids_for_query q_tokens ofac_index 5000 in
  if bool_decide (cand_ids = []) then Ok [] else
  exc_bind
    (scored_loop q q_set q_is_entity min_score (items ofac_index) cand_ids [])
    (λ scored,
       Ok (take (Z.to_nat (Z.max 1 top_k)) (stable_sort rank_leb scored))).

(** *** Deduplicator *)

Definition core_person_key (norm_name : str) : str :=
  let toks := tokenize_name (normalize_name norm_name) in
  match toks with
  | t0 :: t1 :: _ => t0 ++ [BAR] ++ t1
  | _ => norm_name
  end.

(** The loop of [dedupe_by_core], with its two local variables. *)
Fixpoint dedupe_loop (top_k : Z) (matches : list Match) (seen : gset str)
    (out : list Match) : list Match :=
  match matches with
  | [] => out
  | (nm, sc, e) :: rest =>
      let key := core_person_key nm in
      if bool_decide (key ∈ seen) then dedupe_loop top_k rest seen out
      else
        let seen := seen ∪ {[key]} in
        let out := out ++ [(nm, sc, e)] in
        if bool_decide (Z.max 1 top_k ≤ Z.of_nat (length out))%Z then out
        else dedupe_loop top_k rest seen out
  end.

Definition dedupe_by_core (matches : list Match) (top_k : Z) : list Match :=
  dedupe_loop top_k matches ∅ [].

(** *** The brute-force scan of the specification

    Written from the words of the specification ("a brute-force full scan
    using the same scoring rule"): every indexed item goes through the
    overlap gate and the composite score, no blocking. *)

Definition brute_force_scan (name : str) (ofac_index : Index) (min_score : Q)
    : list Match :=
  let q := normalize_name name in
  let q_tokens := tokenize_name q in
  let q_is_entity := looks_like_entity q_tokens in
  let q_set : gset str := list_to_set q_tokens in
  omap (λ it,
          let overlap := size (q_set ∩ token_set it) in
          if gate_rejects q_set overlap then None
          else
            let score := composite_score q q_set q_is_entity it overlap in
            if Qleb min_score score
            then Some (norm it, round1 score, entry it)
            else None)
       (items ofac_index).

Definition brute_force_top_matches (name : str) (ofac_index : Index)
    (top_k : Z) (min_score : Q) : list Match :=
  take (Z.to_nat (Z.max 1 top_k))
       (stable_sort rank_leb (brute_force_scan name ofac_index min_score)).

End Engine.

(** ** Vocabulary of the properties *)

Section Vocabulary.
Context `{Platform}.

(** What the normalizer relies on from the standard library: NFKD never
    leaves the precomposed Ñ in its output (it has a canonical decomposition,
    N followed by U+0303), and a string of capital letters A to Z and spaces
    is left alone by [upper] and by NFKD and holds no combining mark. *)
Definition nfkd_decomposes_enye : Prop := ∀ s, ENYE ∉ nfkd s.

Definition ascii_stable : Prop :=
  ∀ s, Forall letter_or_space s →
       str_upper s = s ∧ nfkd s = s ∧ Forall (λ c, combining c = 0%N) s.

(** A loop over a set visits the members of the set, and nothing else. *)
Definition iter_tokens_faithful : Prop :=
  ∀ (X : gset str) t, t ∈ iter_tokens X ↔ t ∈ X.

Definition iter_ids_faithful : Prop :=
  ∀ (X : gset nat) i, i ∈ iter_ids X ↔ i ∈ X.


(** The posting set of a token, empty when the token is no key. *)
Definition posting (idx : Index) (t : str) : gset nat :=
  default ∅ (token_to_ids idx !! t).

(** An item as the builder derives it from its entry. *)
Definition item_derived (it : Item) : Prop :=
  norm it = normalize_name (default [] (name (entry it)))
  ∧ norm it ≠ []
  ∧ tokens it = tokenize_name (norm it)
  ∧ tokens it ≠ []
  ∧ token_set it = list_to_set (tokens it)
  ∧ is_entity it = looks_like_entity (tokens it).

(** The invariant of a built index. *)
Record index_inv (idx : Index) : Prop := {
  inv_items : ∀ it, it ∈ items idx → item_derived it;
  inv_postings : ∀ t i,
    i ∈ posting idx t ↔
    3 ≤ length t ∧ ∃ it, items idx !! i = Some it ∧ t ∈ tokens it;
  inv_keys : ∀ t,
    t ∈ dom (token_to_ids idx) ↔
    3 ≤ length t ∧ ∃ it, it ∈ items idx ∧ t ∈ tokens it;
  inv_mp : ∀ k e,
    mp idx !! k = Some e ↔
    ∃ i it, items idx !! i = Some it ∧ norm it = k ∧ entry it = e
            ∧ ∀ j it', j < i → items idx !! j = Some it' → norm it' ≠ k;
  inv_names : names idx = norm <$> items idx
}.

Definition core_keys (l : list Match) : list str :=
  (λ m : Match, core_person_key m.1.1) <$> l.

End Vocabulary.

(** ** A concrete platform for the examples

    An excerpt of the Unicode tables (Basic Latin and the capital letters of
    Latin-1 with their marks), enough for the names used below, and the
    iteration order of [elements]. *)
Module Sample.

Definition upper_char (c : N) : str :=
  if ((97 <=? c) && (c <=? 122))%N then [(c - 32)%N]
  else if (c =? 223)%N then [83%N; 83%N]
  else if ((224 <=? c) && (c <=? 254) && negb (c =? 247))%N then [(c - 32)%N]
  else [c].

Definition upper (s : str) : str := s ≫= upper_char.

(** The decomposition mappings of the excerpt: base letter and mark of the
    capitals of Latin-1, and the no-break space. *)
Definition decomposition_table : list (N * str) :=
    [ (192, [65; 768]); (193, [65; 769]); (194, [65; 770]);
      (195, [65; 771]); (196, [65; 776]); (197, [65; 778]);
      (199, [67; 807]);
      (200, [69; 768]); (201, [69; 769]); (202, [69; 770]); (203, [69; 776]);
      (204, [73; 768]); (205, [73; 769]); (206, [73; 770]); (207, [73; 776]);
      (209, [78; 771]);
      (210, [79; 768]); (211, [79; 769]); (212, [79; 770]);
      (213, [79; 771]); (214, [79; 776]);
      (217, [85; 768]); (218, [85; 769]); (219, [85; 770]); (220, [85; 776]);
      (221, [89; 769]);
      (160, [32]) ]%N.

Definition decompositions : gmap N str := list_to_map decomposition_table.

Definition decompose (c : N) : str := default [c] (decompositions !! c).

Definition decomposed (s : str) : str := s ≫= decompose.

Definition combining_class (c : N) : N :=
  match c with
  | 768 | 769 | 770 | 771 | 776 | 778 => 230
  | 807 => 202
  | _ => 0
  end%N.

(** rapidfuzz gives two equal non-empty strings the ratio 100; the examples
    that use this scorer compare a name with itself only. *)
Definition same_ratio (a b : str) : Q :=
  if bool_decide (a = b ∧ a ≠ []) then 100%Q else 0%Q.

Definition token_order (X : gset str) : list str := elements X.
Definition id_order (X : gset nat) : list nat := elements X.

Definition platform : Platform :=
  {| str_upper := upper; nfkd := decomposed; combining := combining_class;
     WRatio := same_ratio; token_set_ratio := same_ratio;
     iter_tokens := token_order; iter_ids := id_order |}.

(** A platform whose scorers see no similarity at all: the lower end of
    their range. *)
Definition no_ratio (a b : str) : Q := 0%Q.

Definition dissimilar : Platform :=
  {| str_upper := upper; nfkd := decomposed; combining := combining_class;
     WRatio := no_ratio; token_set_ratio := no_ratio;
     iter_tokens := token_order; iter_ids := id_order |}.

Definition named (s : string) : Entry :=
  {| uid := None; name := Some (lit s); type := None; remarks := None |}.

End Sample.

(** ** Vocabulary of the lookups *)

Section LookupVocabulary.
Context `{Platform}.

(** The query as both lookups derive it from the name. *)
Definition query (name : str) : str := normalize_name name.
Definition query_tokens (name : str) : list str := tokenize_name (query name).
Definition query_set (name : str) : gset str := list_to_set (query_tokens name).

#[global] Instance Qle_decision (x y : Q) : Decision (x <= y)%Q.
Proof.
  destruct (Qlt_le_dec y x); [right; by apply Qlt_not_le | by left].
Defined.

(** The composite score of an item for a query. *)
Definition item_score (name : str) (it : Item) : Q :=
  composite_score (query name) (query_set name)
    (looks_like_entity (query_tokens name)) it
    (size (query_set name ∩ token_set it)).

(** An item passes the overlap gate of a query. *)
Definition passes_gate (name : str) (it : Item) : Prop :=
  2 ≤ size (query_set name ∩ token_set it).

#[global] Instance passes_gate_dec name it : Decision (passes_gate name it).
Proof. unfold passes_gate. apply _. Defined.

(** The items the retriever hands to the candidate loop, in the order of the
    loop, and the ones among them that pass the gate. *)
Definition candidates (name : str) (idx : Index) : list Item :=
  omap (λ cid, items idx !! cid)
       (_candidate_ids_for_query (query_tokens name) idx 5000).

Definition survivors (name : str) (idx : Index) : list Item :=
  filter (passes_gate name) (candidates name idx).

(** The triple returned for an item. *)
Definition match_of (name : str) (it : Item) : Match :=
  (norm it, round1 (item_score name it), entry it).

(** Every candidate id is a position of [items]. *)
Definition ids_in_range (idx : Index) (cand_ids : list nat) : Prop :=
  Forall (λ cid, is_Some (items idx !! cid)) cand_ids.
End LookupVocabulary.

Section RankingVocabulary.
Context `{Platform}.

(** The ranked list [fuzzy_top_matches] truncates: the matches of the
    survivors that reach the threshold, sorted. *)
Definition ranked (name : str) (idx : Index) (min_score : Q) : list Match :=
  stable_sort rank_leb
    (match_of name <$>
       filter (λ it, (min_score <= item_score name it)%Q) (survivors name idx)).

(** One step of the selection of [fuzzy_match]. *)
Definition pick (name : str) (best : option (Q * str * Entry)) (it : Item)
    : option (Q * str * Entry) :=
  let better :=
    match best with
    | None => true
    | Some (b, _, _) => Qltb b (item_score name it)
    end in
  if better then Some (item_score name it, norm it, entry it) else best.

(** The query is turned down before any candidate is looked at. *)
Definition too_short (name : str) : Prop :=
  query name = [] ∨ length (query_tokens name) < 2.

Definition cap (top_k : Z) : nat := Z.to_nat (Z.max 1 top_k).
End RankingVocabulary.

Section SelectionVocabulary.
Context `{Platform}.

(** The candidate [fuzzy_match] is left with after its loop. *)
Definition best_of (name : str) (idx : Index) : option (Q * str * Entry) :=
  foldl (pick name) None (survivors name idx).

(** The last step of [fuzzy_match]: the threshold. *)
Definition select (min_score : Q) (best : option (Q * str * Entry))
    : option Match :=
  match best with
  | None => None
  | Some (score, best_name, entry) =>
      if Qleb min_score score then Some (best_name, round1 score, entry)
      else None
  end.
End SelectionVocabulary.

(** * The code around the engine *)

(** ** Text helper of the ingestion (backend/ingest.py) *)

(** [re.sub(r"\s+", " ", (s or "")).strip()] *)
Definition normalize_text (s : str) : str := strip (sub_space_runs false s).

(** ** The reader of the reference list (backend/ofac.py)

    [xml.etree.ElementTree] is library code: [parse_sdn_xml] is modelled from
    the element tree [ET.fromstring] hands it. *)

Definition RBRACE : N := 125%N.   (* the closing brace of a qualified tag *)

(** [tag.split("}")[-1] if "}" in tag else tag] *)
Definition _strip_ns (tag : str) : str :=
  if bool_decide (RBRACE ∈ tag) then default [] (last (split RBRACE tag))
  else tag.

Inductive Element : Type :=
  mkElement (tag : str) (attrib : gmap str str) (text : option str)
            (children : list Element).

Definition tag (e : Element) : str :=
  match e with mkElement t _ _ _ => t end.
Definition attrib (e : Element) : gmap str str :=
  match e with mkElement _ a _ _ => a end.
Definition text (e : Element) : option str :=
  match e with mkElement _ _ x _ => x end.
Definition children (e : Element) : list Element :=
  match e with mkElement _ _ _ cs => cs end.

(** [(elem.text or "").strip()] *)
Definition _safe_text (elem : Element) : str := strip (default [] (text elem)).

(** [Element.iter()]: the element and all elements below it, in document
    order. *)
Fixpoint iter (e : Element) : list Element :=
  match e with
  | mkElement _ _ _ cs =>
      e :: (fix below (cs : list Element) : list Element :=
              match cs with
              | [] => []
              | c :: cs' => iter c ++ below cs'
              end) cs
  end.

(** [Element.findall(".//")]: ElementPath reads a path that ends in a slash
    as ending in [*], so the path selects every element below the root, the
    root itself left out, in document order. *)
Definition findall_below (root : Element) : list Element := tail (iter root).

(** The truth value of an optional string: [None] and [""] are false. *)
Definition truthy (o : option str) : bool :=
  match o with
  | Some (_ :: _) => true
  | _ => false
  end.

(** [sep.join(parts)] *)
Fixpoint join (sep : str) (parts : list str) : str :=
  match parts with
  | [] => []
  | [p] => p
  | p :: ps => p ++ sep ++ join sep ps
  end.

(** The local variables of the loop over the children of an [sdnEntry]. *)
Record Fields := mkFields {
  f_uid : option str;
  f_first : option str;
  f_last : option str;
  f_whole : option str;
  f_typ : option str;
  f_remarks : option str
}.

(** The body of the loop over the children of an [sdnEntry]. *)
Definition scan_child (st : Fields) (e : Element) : Fields :=
  let t := _strip_ns (tag e) in
  if bool_decide (t = lit "uid") then
    {| f_uid := Some (_safe_text e); f_first := f_first st; f_last := f_last st;
       f_whole := f_whole st; f_typ := f_typ st; f_remarks := f_remarks st |}
  else if bool_decide (t ∈ [lit "lastName"; lit "last"]) then
    {| f_uid := f_uid st; f_first := f_first st; f_last := Some (_safe_text e);
       f_whole := f_whole st; f_typ := f_typ st; f_remarks := f_remarks st |}
  else if bool_decide (t ∈ [lit "firstName"; lit "first"]) then
    {| f_uid := f_uid st; f_first := Some (_safe_text e); f_last := f_last st;
       f_whole := f_whole st; f_typ := f_typ st; f_remarks := f_remarks st |}
  else if bool_decide (t ∈ [lit "sdnName"; lit "name"]) then
    {| f_uid := f_uid st; f_first := f_first st; f_last := f_last st;
       f_whole := Some (_safe_text e); f_typ := f_typ st;
       f_remarks := f_remarks st |}
  else if bool_decide (t ∈ [lit "sdnType"; lit "type"]) then
    {| f_uid := f_uid st; f_first := f_first st; f_last := f_last st;
       f_whole := f_whole st; f_typ := Some (_safe_text e);
       f_remarks := f_remarks st |}
  else if bool_decide (t ∈ [lit "remarks"]) then
    {| f_uid := f_uid st; f_first := f_first st; f_last := f_last st;
       f_whole := f_whole st; f_typ := f_typ st;
       f_remarks := Some (_safe_text e) |}
  else st.

(** The name built from what the children gave: the whole name when there is
    one, the last and first names joined otherwise. *)
Definition built_name (st : Fields) : option str :=
  if truthy (f_whole st) then f_whole st
  else
    let parts := omap (λ p, if truthy p then p else None) [f_last st; f_first st] in
    match parts with
    | [] => None
    | _ => Some (join (lit ", ") parts)
    end.

(** The dict [data] of one [sdnEntry] in the first pass. *)
Definition entry_data (child : Element) : Entry :=
  let st := foldl scan_child
              {| f_uid := attrib child !! lit "uid"; f_first := None;
                 f_last := None; f_whole := None; f_typ := None;
                 f_remarks := None |}
              (children child) in
  {| uid := f_uid st; name := built_name st; type := f_typ st;
     remarks := f_remarks st |}.

Definition is_sdnEntry (e : Element) : Prop := _strip_ns (tag e) = lit "sdnEntry".

#[global] Instance is_sdnEntry_dec e : Decision (is_sdnEntry e).
Proof. unfold is_sdnEntry. apply _. Defined.

(** The first loop of [parse_sdn_xml]. *)
Definition first_pass (root : Element) : list Entry :=
  foldl (λ entries child,
           if bool_decide (is_sdnEntry child) then
             let data := entry_data child in
             if truthy (name data) then entries ++ [data] else entries
           else entries)
        [] (iter root).

(** The name the fallback finds for an [sdnEntry]: the text of the first
    element at any depth whose tag is [sdnName] or [name]. *)
Definition deep_name (sdnEntry : Element) : option str :=
  _safe_text <$>
    head (filter (λ e, _strip_ns (tag e) ∈ [lit "sdnName"; lit "name"])
                 (iter sdnEntry)).

(** The fallback loop. *)
Definition fallback_pass (root : Element) : list Entry :=
  foldl (λ entries sdnEntry,
           if bool_decide (is_sdnEntry sdnEntry) then
             let nm := deep_name sdnEntry in
             if truthy nm
             then entries ++ [ {| uid := attrib sdnEntry !! lit "uid"; name := nm;
                                  type := None; remarks := None |} ]
             else entries
           else entries)
        [] (findall_below root).

Definition parse_sdn_xml (root : Element) : list Entry :=
  let entries := first_pass root in
  if bool_decide (entries = []) then fallback_pass root else entries.

(** ** The web service (backend/app.py) *)

Definition CR : N := 13%N.
Definition LF : N := 10%N.
Definition EM_DASH : N := 8212%N.

(** [s.replace("\r\n", "\n")] *)
Fixpoint replace_crlf (s : str) : str :=
  match s with
  | [] => []
  | c :: s' =>
      match s' with
      | d :: s'' =>
          if ((c =? CR) && (d =? LF))%N then LF :: replace_crlf s''
          else c :: replace_crlf s'
      | [] => [c]
      end
  end.

(** [s.replace("\r", "\n")] *)
Definition replace_cr (s : str) : str :=
  (λ c, if (c =? CR)%N then LF else c) <$> s.

(** [s[:n]], with Python's reading of a negative bound. *)
Definition slice_to {A} (n : Z) (s : list A) : list A :=
  if bool_decide (0 ≤ n)%Z then take (Z.to_nat n) s
  else take (length s - Z.to_nat (- n)) s.

(** [_clip_excel], for the values it is called with: a string or [None]. *)
Definition _clip_excel (x : option str) (max_len : Z) : str :=
  let s := match x with None => [EM_DASH] | Some s => s end in
  let s := replace_cr (replace_crlf s) in
  if bool_decide (max_len < Z.of_nat (length s))%Z then slice_to max_len s else s.

(** One element of the answer of [/api/search_ofac]. *)
Record Hit := mkHit {
  ofac_name : str;
  score : Q;
  hit_uid : option str;
  hit_type : option str
}.

(** The persons of a text, with the two library calls of [extract_persons]
    as parameters: [str.lower], and the entities spaCy finds, each with its
    label. *)
Section Persons.
Context (str_lower : str → str) (ents : str → list (str * str)).

(** The loop of [extract_persons]. *)
Fixpoint persons_loop (persons : list str) (seen : gset str) (out : list str)
    : list str :=
  match persons with
  | [] => out
  | p :: rest =>
      let k := str_lower p in
      if bool_decide (k ∉ seen) && bool_decide (3 ≤ length p)
      then persons_loop rest (seen ∪ {[k]}) (out ++ [p])
      else persons_loop rest seen out
  end.

Definition extract_persons (txt : str) : list str :=
  let persons :=
    (λ ent : str * str, strip ent.1) <$>
      filter (λ ent : str * str, ent.2 = lit "PERSON") (ents txt) in
  persons_loop persons ∅ [].
End Persons.

Section Service.
Context `{Platform}.

(** [api_search_ofac], with the index of [STATE] as an argument. *)
Definition api_search_ofac (ofac_index : Index) (q : str) (limit : Z)
    : exc (list Hit) :=
  let limit := Z.max 1 (Z.min limit 50) in
  let q := strip q in
  if bool_decide (q = []) then Ok [] else
  if bool_decide (names ofac_index = []) then Ok [] else
  exc_bind (fuzzy_top_matches q ofac_index (limit * 3) 80)
    (λ matches,
       let matches := dedupe_by_core matches limit in
       Ok ((λ m : Match,
              {| ofac_name := m.1.1; score := m.1.2;
                 hit_uid := uid m.2; hit_type := type m.2 |}) <$> matches)).

End Service.

(** ** Vocabulary of the properties of the code around the engine *)

(** A character that is no white space other than the plain space. *)
Definition plain_space (c : N) : Prop := is_space c = true → c = SPACE.

(** Words separated by one plain space, no white space at either end. *)
Definition tidy (s : str) : Prop :=
  Forall plain_space s
  ∧ head s ≠ Some SPACE
  ∧ last s ≠ Some SPACE
  ∧ single_spaced s.

(** An optional string that is stripped when it is there. *)
Definition stripped (o : option str) : Prop := ∀ n, o = Some n → strip n = n.

(** The stop words no token of a normalized name can be: a token has at
    least two characters, all of them capital letters. *)
Definition unreachable_stopwords : list str :=
  lit <$> ["S"; "A"; "S.A"; "S.A."; "S A"]%string.

Section EngineVocabulary.
Context `{Platform}.

(** An entry the builder keeps: its name has at least one token. *)
Definition indexable (e : Entry) : Prop :=
  tokenize_name (normalize_name (default [] (name e))) ≠ [].

#[global] Instance indexable_dec e : Decision (indexable e).
Proof. unfold indexable. apply _. Defined.

(** The item the builder makes of an entry. *)
Definition item_of (e : Entry) : Item :=
  let norm := normalize_name (default [] (name e)) in
  let toks := tokenize_name norm in
  {| norm := norm; tokens := toks; token_set := list_to_set toks;
     is_entity := looks_like_entity toks; entry := e |}.

End EngineVocabulary.

(** ** Sample data *)

Definition pena : str := lit "Pe" ++ [241%N] ++ lit "a  Nieto, Jos" ++ [233%N].
Definition roster : list Entry := [Sample.named "PETRO URREGO, GUSTAVO FRANCISCO"; Sample.named "AL BO"].

(** A small SDN document: one entry with a whole name, one with last and
    first names and a uid element, one without any name. *)
Definition sample_document : Element :=
  mkElement (lit "{https://sanctionslistservice.ofac.treas.gov}sdnList") ∅ None
    [ mkElement (lit "sdnEntry") {[ lit "uid" := lit "7" ]} None
        [ mkElement (lit "sdnName") ∅ (Some (lit "  BANCO NACIONAL ")) [];
          mkElement (lit "sdnType") ∅ (Some (lit "Entity")) [] ];
      mkElement (lit "{ns}sdnEntry") ∅ None
        [ mkElement (lit "{ns}uid") ∅ (Some (lit "36")) [];
          mkElement (lit "{ns}lastName") ∅ (Some (lit "PETRO URREGO")) [];
          mkElement (lit "{ns}firstName") ∅ (Some (lit " Gustavo")) [] ];
      mkElement (lit "sdnEntry") ∅ None
        [ mkElement (lit "remarks") ∅ (Some (lit "no name")) [] ] ].

(** ** The mentions job and its reader (backend/app.py) *)

(** A raw mention, with the keys [ingest.collect_mentions] gives it. *)
Record RawItem := mkRawItem {
  item_id : str;
  item_source : str;
  item_kind : str;
  item_text : str;
  item_link : str;
  item_published : str;
  item_ts_utc : str
}.

(** One element of [ofac_matches]. *)
Record OfacMatch := mkOfacMatch {
  candidate : str;
  matched_name : str;
  matched_score : Q;
  matched_uid : option str;
  matched_type : option str
}.

(** A processed mention: the raw item and the keys added to it. *)
Record Mention := mkMention {
  raw_item : RawItem;
  persons : list str;
  ofac_matches : list OfacMatch;
  has_ofac_match : bool;
  processed_utc : str
}.

(** The keys of [STATE] the job reads and writes. *)
Record State := mkState {
  ofac_index : Index;
  mentions : list Mention;
  seen_ids : gset str;
  last_mentions_run_utc : option str;
  last_error : option str
}.

Section Mentions.
Context `{Platform}.
Context (str_lower : str → str) (ents : str → list (str * str)).
Context (API_RESULTS_LIMIT : Z).

(** The loop over the persons of one mention. *)
Fixpoint matches_loop (idx : Index) (ps : list str) (matches : list OfacMatch)
    : exc (list OfacMatch) :=
  match ps with
  | [] => Ok matches
  | p :: rest =>
      exc_bind (fuzzy_match p idx 92)
        (λ m,
           match m with
           | Some (best_name, sc, e) =>
               matches_loop idx rest
                 (matches ++ [ {| candidate := p; matched_name := best_name;
                                  matched_score := sc; matched_uid := uid e;
                                  matched_type := type e |} ])
           | None => matches_loop idx rest matches
           end)
  end.

(** The loop over the raw mentions.  [seen_ids] is updated in place, so what
    was added to it stays when a lookup raises. *)
Fixpoint mentions_loop (idx : Index) (now : str) (raw : list RawItem)
    (seen : gset str) (out : list Mention) : gset str * exc (list Mention) :=
  match raw with
  | [] => (seen, Ok out)
  | item :: rest =>
      if bool_decide (item_id item ∈ seen) then mentions_loop idx now rest seen out
      else
        let ps := extract_persons str_lower ents (item_text item) in
        match matches_loop idx ps [] with
        | IndexError => (seen, IndexError)
        | Ok matches =>
            mentions_loop idx now rest (seen ∪ {[item_id item]})
              (out ++ [ {| raw_item := item; persons := ps;
                           ofac_matches := matches;
                           has_ofac_match := bool_decide (matches ≠ []);
                           processed_utc := now |} ])
        end
  end.

(** [refresh_mentions], given what [collect_mentions] returned and the time
    stamp taken after it. *)
Definition refresh_mentions (raw : list RawItem) (now : str) (st : State) : State :=
  match mentions_loop (ofac_index st) now raw (seen_ids st) [] with
  | (seen, Ok out) =>
      {| ofac_index := ofac_index st;
         mentions := if bool_decide (out = []) then mentions st
                     else slice_to API_RESULTS_LIMIT (out ++ mentions st);
         seen_ids := seen;
         last_mentions_run_utc := Some now;
         last_error := None |}
  | (seen, IndexError) =>
      {| ofac_index := ofac_index st;
         mentions := mentions st;
         seen_ids := seen;
         last_mentions_run_utc := last_mentions_run_utc st;
         last_error :=
           Some (lit "Mentions refresh error: list index out of range") |}
  end.

(** [api_results] *)
Definition api_results (st : State) (only_ofac : Z) (limit : Z) : list Mention :=
  let limit := Z.max 1 (Z.min limit API_RESULTS_LIMIT) in
  let items := mentions st in
  let items := if bool_decide (only_ofac ≠ 0%Z)
               then filter (λ x, has_ofac_match x = true) items else items in
  slice_to limit items.

End Mentions.

(** ** Vocabulary of the mentions job *)

Definition mention_id (m : Mention) : str := item_id (raw_item m).

(** A mention is flagged exactly when it has a match, and its matches score
    92 or more. *)
Definition mention_ok (m : Mention) : Prop :=
  has_ofac_match m = bool_decide (ofac_matches m ≠ [])
  ∧ Forall (λ om, (92 <= matched_score om)%Q) (ofac_matches m).

(** No mention is stored twice, every stored mention is marked as seen, and
    every stored mention is well formed. *)
Definition state_ok (st : State) : Prop :=
  NoDup (mention_id <$> mentions st)
  ∧ Forall (λ m, mention_id m ∈ seen_ids st) (mentions st)
  ∧ Forall mention_ok (mentions st).

(** ** Sample data of the mentions job *)

(** [str.lower] on the letters A to Z. *)
Definition sample_lower (s : str) : str :=
  (λ c, if ((65 <=? c) && (c <=? 90))%N then (c + 32)%N else c) <$> s.

(** A stand-in for the entities spaCy finds. *)
Definition sample_ents (txt : str) : list (str * str) :=
  [ (lit " Petro Gustavo ", lit "PERSON"); (lit "Bogota", lit "GPE");
    (lit "PETRO GUSTAVO", lit "PERSON"); (lit "Al", lit "PERSON") ].

Definition sample_item : RawItem :=
  {| item_id := lit "3f2a"; item_source := lit "feed"; item_kind := lit "news";
     item_text := lit "Petro Gustavo was designated in Bogota";
     item_link := []; item_published := []; item_ts_utc := lit "t0" |}.

Definition sample_state : State :=
  {| ofac_index :=
       @build_ofac_name_index Sample.platform
         (Sample.named "PETRO GUSTAVO"
          :: [Sample.named "PETRO URREGO, GUSTAVO FRANCISCO"; Sample.named "AL BO"]);
     mentions := []; seen_ids := ∅;
     last_mentions_run_utc := None; last_error := None |}.


(** * Properties *)

Section Dedupe.
Context `{Platform}.

(** What one pass leaves: the accumulator extended by matches with pairwise
    different keys, none of them seen before, and no more than the cap. *)
Lemma dedupe_loop_shape top_k l seen out :
  ∃ kept,
    dedupe_loop top_k l seen out = out ++ kept
    ∧ NoDup (core_keys kept)
    ∧ (∀ k, k ∈ core_keys kept → k ∉ seen)
    ∧ ((Z.of_nat (length out) < Z.max 1 top_k)%Z →
       (Z.of_nat (length out + length kept) ≤ Z.max 1 top_k)%Z).
Proof.
  revert seen out.
  induction l as [|[[nm sc] e] l IH]; intros seen out; simpl.
  - exists []. rewrite app_nil_r. repeat split; [constructor | set_solver | simpl; lia].
  - case_bool_decide as Hseen; [apply IH|].
    case_bool_decide as Hfull.
    + exists [(nm, sc, e)]. repeat split.
      * apply NoDup_singleton.
      * intros k Hk. apply list_elem_of_singleton in Hk. by subst.
      * simpl. lia.
    + destruct (IH (seen ∪ {[core_person_key nm]}) (out ++ [(nm, sc, e)]))
        as (kept & Heq & Hnd & Hfresh & Hlen).
      exists ((nm, sc, e) :: kept). repeat split.
      * by rewrite Heq, <- app_assoc.
      * simpl. constructor; [|done].
        intros Hin. apply Hfresh in Hin. set_solver.
      * intros k Hk. simpl in Hk. apply elem_of_cons in Hk as [->|Hk]; [done|].
        apply Hfresh in Hk. set_solver.
      * intros _. rewrite length_app in Hlen, Hfull. simpl in *. lia.
Qed.

(** A list of matches with pairwise different, unseen keys that fits under
    the cap goes through the loop untouched. *)
Lemma dedupe_loop_fixed top_k l seen out :
  NoDup (core_keys l) →
  (∀ k, k ∈ core_keys l → k ∉ seen) →
  (Z.of_nat (length out + length l) ≤ Z.max 1 top_k)%Z →
  dedupe_loop top_k l seen out = out ++ l.
Proof.
  revert seen out.
  induction l as [|[[nm sc] e] l IH]; intros seen out Hnd Hfresh Hlen; simpl.
  - by rewrite app_nil_r.
  - simpl in Hnd. apply NoDup_cons in Hnd as [Hhd Hnd].
    rewrite bool_decide_eq_false_2 by (apply Hfresh; simpl; left).
    case_bool_decide as Hfull.
    + rewrite length_app in Hfull. simpl in *.
      destruct l; [done | simpl in *; lia].
    + rewrite IH; [by rewrite <- app_assoc | done | |].
      * intros k Hk. specialize (Hfresh k). simpl in Hfresh.
        assert (k ≠ core_person_key nm) by (intros ->; done).
        set_solver.
      * rewrite length_app. simpl in *. lia.
Qed.

(** C9: removing duplicates from the output of [dedupe_by_core], with the
    same [top_k], gives that output back. *)
Theorem dedupe_by_core_idempotent (matches : list Match) (top_k : Z) :
  dedupe_by_core (dedupe_by_core matches top_k) top_k
  = dedupe_by_core matches top_k.
Proof.
  unfold dedupe_by_core.
  destruct (dedupe_loop_shape top_k matches ∅ []) as (kept & -> & Hnd & _ & Hlen).
  simpl. apply (dedupe_loop_fixed top_k kept ∅ []); [done | set_solver |].
  apply Hlen. simpl. lia.
Qed.

End Dedupe.

Section Normalizer.
Context `{Platform}.

Lemma is_AZ_not_space c : is_AZ c = true → is_space c = false.
Proof.
  unfold is_AZ, is_space. intros Hc.
  apply andb_true_iff in Hc as [H1 H2].
  apply N.leb_le in H1, H2.
  repeat (apply orb_false_iff; split);
    try (apply andb_false_iff);
    try (apply N.eqb_neq; lia);
    try (left; apply N.leb_gt; lia);
    try (right; apply N.leb_gt; lia).
Qed.

Lemma SPACE_is_space : is_space SPACE = true.
Proof. reflexivity. Qed.

Lemma letter_or_space_is_space c :
  letter_or_space c → (is_space c = true ↔ c = SPACE).
Proof.
  intros [Hc | ->]; [|done].
  rewrite (is_AZ_not_space c Hc). split; [done|].
  intros ->. by vm_compute in Hc.
Qed.

Lemma in_name_class_cases c :
  in_name_class c = true → c ≠ ENYE → letter_or_space c.
Proof.
  unfold in_name_class. intros Hc Hne.
  apply orb_true_iff in Hc as [Hc | Hc].
  - apply orb_true_iff in Hc as [Hc | Hc]; [by left|].
    apply N.eqb_eq in Hc. done.
  - apply N.eqb_eq in Hc. by right.
Qed.

Lemma letter_or_space_in_class c : letter_or_space c → in_name_class c = true.
Proof.
  unfold in_name_class. intros [Hc | ->]; [by rewrite Hc | reflexivity].
Qed.

Lemma letter_or_space_not_ENYE c : letter_or_space c → c ≠ ENYE.
Proof. intros [Hc | Hc] ->; by vm_compute in Hc. Qed.

(** The first substitution leaves letters, spaces and, where the input has
    it, the precomposed Ñ. *)
Lemma sub_outside_class_letters s :
  ENYE ∉ s → Forall letter_or_space (sub_outside_class s).
Proof.
  unfold sub_outside_class. intros Hne.
  apply Forall_fmap, Forall_forall. intros c Hc. simpl.
  destruct (in_name_class c) eqn:Hcl; [|by right].
  apply in_name_class_cases; [done|]. intros ->. done.
Qed.

Lemma sub_outside_class_id s :
  Forall letter_or_space s → sub_outside_class s = s.
Proof.
  unfold sub_outside_class. induction 1 as [|c s Hc _ IH]; [done|].
  rewrite fmap_cons, IH. by rewrite (letter_or_space_in_class c Hc).
Qed.

Lemma sub_space_runs_letters b s :
  Forall letter_or_space s → Forall letter_or_space (sub_space_runs b s).
Proof.
  intros Hs. revert b.
  induction Hs as [|c s Hc _ IH]; intros b; simpl; [constructor|].
  destruct (is_space c), b; try apply IH; constructor; try apply IH; try done.
  all: by right.
Qed.

Lemma sub_space_runs_head b s :
  Forall letter_or_space s →
  b = true → head (sub_space_runs b s) ≠ Some SPACE.
Proof.
  intros Hs ->. induction Hs as [|c s Hc _ IH]; simpl; [done|].
  destruct (is_space c) eqn:Hsp; [done|]. simpl.
  intros [= ->]. done.
Qed.

Lemma sub_space_runs_single_spaced b s :
  Forall letter_or_space s → single_spaced (sub_space_runs b s).
Proof.
  intros Hs. revert b.
  induction Hs as [|c s Hc Hs IH]; intros b; [done|].
  cbn [sub_space_runs].
  destruct (is_space c) eqn:Hsp.
  - destruct b; [apply IH|].
    pose proof (sub_space_runs_head true s Hs eq_refl) as Hhd.
    specialize (IH true).
    destruct (sub_space_runs true s) as [|c2 r]; [done|].
    split; [|done]. intros [_ ->]. done.
  - specialize (IH false).
    destruct (sub_space_runs false s) as [|c2 r]; [done|].
    split; [|done]. intros [-> _]. done.
Qed.

Lemma sub_space_runs_id b s :
  Forall letter_or_space s → single_spaced s →
  (b = true → head s ≠ Some SPACE) →
  sub_space_runs b s = s.
Proof.
  intros Hs. revert b.
  induction Hs as [|c s Hc Hs IH]; intros b Hsingle Hhd; [done|].
  cbn [sub_space_runs].
  assert (single_spaced s) as Hs'.
  { destruct s; [done|]. by destruct Hsingle. }
  destruct (is_space c) eqn:Hsp.
  - apply (letter_or_space_is_space c Hc) in Hsp as ->.
    destruct b; [by destruct Hhd|].
    f_equal. apply IH; [done|]. intros _.
    destruct s as [|c2 r]; [done|]. simpl.
    intros [= ->]. by destruct Hsingle as [[] _].
  - f_equal. by apply IH.
Qed.

Lemma lstrip_letters (P : N → Prop) s : Forall P s → Forall P (lstrip s).
Proof.
  induction 1 as [|c s Hc Hs IH]; simpl; [constructor|].
  destruct (is_space c); [done | by constructor].
Qed.

Lemma lstrip_head s : Forall letter_or_space s → head (lstrip s) ≠ Some SPACE.
Proof.
  induction 1 as [|c s Hc Hs IH]; simpl; [done|].
  destruct (is_space c) eqn:Hsp; [done|]. simpl. intros [= ->]. done.
Qed.

Lemma single_spaced_tail c s : single_spaced (c :: s) → single_spaced s.
Proof. destruct s; [done|]. by intros []. Qed.

Lemma lstrip_single_spaced s : single_spaced s → single_spaced (lstrip s).
Proof.
  induction s as [|c s IH]; [done|]. intros Hs. cbn [lstrip].
  destruct (is_space c); [|done]. apply IH. by eapply single_spaced_tail.
Qed.

Lemma lstrip_id s :
  Forall letter_or_space s → head s ≠ Some SPACE → lstrip s = s.
Proof.
  intros Hs Hhd. destruct Hs as [|c s Hc Hs]; [done|]. simpl.
  destruct (is_space c) eqn:Hsp; [|done].
  apply (letter_or_space_is_space c Hc) in Hsp as ->. done.
Qed.

Lemma rstrip_cons_inv c s r :
  rstrip s = c :: r → ∃ s', s = c :: s'.
Proof.
  destruct s as [|c' s]; [done|]. simpl.
  destruct (rstrip s); [destruct (is_space c')|]; intros [= -> _] || intros [=]; eauto.
Qed.

Lemma rstrip_letters (P : N → Prop) s : Forall P s → Forall P (rstrip s).
Proof.
  induction 1 as [|c s Hc Hs IH]; simpl; [constructor|].
  destruct (rstrip s); [destruct (is_space c)|]; [constructor | by constructor | by constructor].
Qed.

Lemma rstrip_head s : head s ≠ Some SPACE → head (rstrip s) ≠ Some SPACE.
Proof.
  destruct s as [|c s]; [done|]. simpl.
  destruct (rstrip s); [destruct (is_space c)|]; done.
Qed.

Lemma rstrip_last s : Forall letter_or_space s → last (rstrip s) ≠ Some SPACE.
Proof.
  induction 1 as [|c s Hc Hs IH]; simpl; [done|].
  destruct (rstrip s) as [|c2 r] eqn:Hr.
  - destruct (is_space c) eqn:Hsp; [done|]. simpl. intros [= ->]. done.
  - by rewrite last_cons_cons.
Qed.

Lemma rstrip_single_spaced s : single_spaced s → single_spaced (rstrip s).
Proof.
  induction s as [|c s IH]; [done|]. intros Hs. cbn [rstrip].
  destruct (rstrip s) as [|c2 r] eqn:Hr.
  - by destruct (is_space c).
  - destruct (rstrip_cons_inv _ _ _ Hr) as [s' ->].
    split; [by destruct Hs | apply IH; by destruct Hs].
Qed.

Lemma rstrip_id s :
  Forall letter_or_space s → last s ≠ Some SPACE → rstrip s = s.
Proof.
  induction 1 as [|c s Hc Hs IH]; [done|]. intros Hlast. simpl.
  destruct s as [|c2 s].
  - simpl. destruct (is_space c) eqn:Hsp; [|done].
    apply (letter_or_space_is_space c Hc) in Hsp as ->. done.
  - rewrite IH by (by rewrite last_cons_cons in Hlast). done.
Qed.

Lemma strip_canonical s : Forall letter_or_space s → single_spaced s → canonical (strip s).
Proof.
  intros Hs Hsingle. unfold strip. repeat split.
  - by apply rstrip_letters, lstrip_letters.
  - by apply rstrip_head, lstrip_head.
  - by apply rstrip_last, lstrip_letters.
  - by apply rstrip_single_spaced, lstrip_single_spaced.
Qed.

Lemma strip_id s : canonical s → strip s = s.
Proof.
  intros (Hs & Hhd & Hlast & _). unfold strip.
  rewrite lstrip_id by done. by apply rstrip_id.
Qed.

Lemma normalize_name_is_canonical s :
  nfkd_decomposes_enye → canonical (normalize_name s).
Proof.
  intros Hn. unfold normalize_name.
  assert (Forall letter_or_space (sub_outside_class (_strip_accents (str_upper s)))).
  { apply sub_outside_class_letters. unfold _strip_accents.
    intros Hin. apply list_elem_of_filter in Hin as [_ Hin]. by apply Hn in Hin. }
  apply strip_canonical.
  - by apply sub_space_runs_letters.
  - by apply sub_space_runs_single_spaced.
Qed.

Lemma filter_keeps_all {A} (P : A → Prop) `{∀ x, Decision (P x)} (l : list A) :
  Forall P l → filter P l = l.
Proof.
  induction 1 as [|x l Hx _ IH]; [done|].
  rewrite filter_cons_True by done. by rewrite IH.
Qed.

Lemma normalize_name_fixes_canonical s :
  ascii_stable → canonical s → normalize_name s = s.
Proof.
  intros Hst Hc. pose proof Hc as (Hs & Hhd & Hlast & Hsingle).
  destruct (Hst s Hs) as (Hup & Hnf & Hcc).
  unfold normalize_name, _strip_accents. rewrite Hup, Hnf.
  rewrite (filter_keeps_all _ s Hcc).
  rewrite sub_outside_class_id by done.
  rewrite sub_space_runs_id by done.
  by apply strip_id.
Qed.

(** Splitting on the space and the tokens. *)
Lemma split_letters s :
  Forall letter_or_space s →
  Forall (λ t, Forall (λ c, is_AZ c = true) t) (split SPACE s).
Proof.
  induction 1 as [|c s Hc Hs IH]; simpl; [by repeat constructor|].
  destruct (c =? SPACE)%N eqn:Hsp.
  - constructor; [constructor | done].
  - apply N.eqb_neq in Hsp. destruct Hc as [Hc | Hc]; [|done].
    destruct (split SPACE s) as [|w ws]; [by repeat constructor|].
    apply Forall_cons in IH as [Hw Hws]. constructor; [by constructor | done].
Qed.

Lemma tokenize_name_letters s :
  Forall letter_or_space s →
  Forall (λ t, Forall (λ c, is_AZ c = true) t) (tokenize_name s).
Proof.
  intros Hs. unfold tokenize_name.
  apply Forall_forall. intros t Ht. apply list_elem_of_filter in Ht as [_ Ht].
  revert t Ht. apply Forall_forall. by apply split_letters.
Qed.

End Normalizer.

Section Builder.
Context `{Platform}.
Hypothesis Hiter : iter_tokens_faithful.

Lemma post_tokens_member idx l m t i :
  i ∈ default ∅ (foldl (post_token idx) m l !! t) ↔
  i ∈ default ∅ (m !! t) ∨ (i = idx ∧ t ∈ l ∧ 3 ≤ length t).
Proof.
  revert m. induction l as [|u l IH]; intros m; simpl.
  - set_solver.
  - rewrite IH. unfold post_token, add_posting.
    case_bool_decide as Hlen.
    + split; [intros [?|(-> & Ht & ?)]; [by left|] | intros [?|(-> & Ht & ?)]; [by left|]].
      * right. set_solver.
      * right. apply elem_of_cons in Ht as [->|Ht]; [lia | done].
    + destruct (decide (t = u)) as [->|Hne].
      * rewrite lookup_insert_eq. simpl.
        split; [intros [Hi|(-> & Ht & ?)] | intros [Hi|(-> & Ht & ?)]].
        -- apply elem_of_union in Hi as [Hi|Hi]; [by left|].
           right. apply elem_of_singleton in Hi as ->. split; [done|]. split; [left|lia].
        -- right. split; [done|]. split; [by right|done].
        -- left. set_solver.
        -- left. set_solver.
      * rewrite lookup_insert_ne by done.
        split; [intros [Hi|(-> & Ht & ?)] | intros [Hi|(-> & Ht & ?)]]; [by left| |by left|].
        -- right. set_solver.
        -- right. apply elem_of_cons in Ht as [->|Ht]; done.
Qed.

Lemma post_tokens_dom idx l m t :
  t ∈ dom (foldl (post_token idx) m l) ↔
  t ∈ dom m ∨ (t ∈ l ∧ 3 ≤ length t).
Proof.
  revert m. induction l as [|u l IH]; intros m; simpl.
  - set_solver.
  - rewrite IH. unfold post_token, add_posting.
    case_bool_decide as Hlen.
    + split; [intros [?|(Ht & ?)]; [by left|] | intros [?|(Ht & ?)]; [by left|]].
      * right. set_solver.
      * right. apply elem_of_cons in Ht as [->|Ht]; [lia | done].
    + rewrite dom_insert. rewrite elem_of_union, elem_of_singleton.
      split; [intros [[->|?]|(Ht & ?)] | intros [?|(Ht & ?)]].
      * right. split; [left|lia].
      * by left.
      * right. split; [by right|done].
      * left. by right.
      * apply elem_of_cons in Ht as [->|Ht]; [left; by left | right; done].
Qed.

Lemma empty_index_inv : index_inv empty_index.
Proof.
  split; simpl.
  - intros it Hit. by apply elem_of_nil in Hit.
  - intros t i. unfold posting. simpl. rewrite lookup_empty. simpl.
    split; [set_solver|]. intros (_ & it & Hit & _). by rewrite lookup_nil in Hit.
  - intros t. rewrite dom_empty. split; [set_solver|].
    intros (_ & it & Hit & _). by apply elem_of_nil in Hit.
  - intros k e. rewrite lookup_empty. split; [done|].
    intros (i & it & Hit & _). by rewrite lookup_nil in Hit.
  - done.
Qed.

Lemma setdefault_lookup (k : str) (e : Entry) (m : gmap str Entry) (k' : str) :
  setdefault k e m !! k' =
  match m !! k' with
  | Some e' => Some e'
  | None => if decide (k = k') then Some e else None
  end.
Proof.
  unfold setdefault. destruct (m !! k) as [e0|] eqn:Hk.
  - destruct (m !! k') eqn:Hk'; [done|]. case_decide; [congruence | done].
  - destruct (decide (k = k')) as [<-|Hne].
    + by rewrite lookup_insert_eq, Hk.
    + rewrite lookup_insert_ne by done. by destruct (m !! k').
Qed.

Lemma first_with_norm (l : list Item) (k : str) :
  (∃ i it, l !! i = Some it ∧ norm it = k) →
  ∃ i it, l !! i = Some it ∧ norm it = k
          ∧ ∀ j it', j < i → l !! j = Some it' → norm it' ≠ k.
Proof.
  induction l as [|x l IH]; intros (i & it & Hi & Hn).
  - by rewrite lookup_nil in Hi.
  - destruct (decide (norm x = k)) as [Hx|Hx].
    + exists 0, x. repeat split; [done|]. intros j it' Hj. lia.
    + destruct i as [|i]; [simpl in Hi; congruence|].
      destruct IH as (i0 & it0 & Hi0 & Hn0 & Hmin); [by eauto|].
      exists (S i0), it0. repeat split; [done..|].
      intros [|j] it' Hj Hit'; simpl in Hit'; [congruence|].
      apply (Hmin j); [lia | done].
Qed.

Lemma index_entry_inv st e : index_inv st → index_inv (index_entry st e).
Proof.
  intros [Hitems Hpost Hkeys Hmp Hnames]. unfold index_entry.
  set (nm := normalize_name (default [] (name e))).
  case_bool_decide as Hnm; [by split|].
  set (toks := tokenize_name nm).
  case_bool_decide as Htoks; [by split|].
  set (new := {| norm := nm; tokens := toks; token_set := list_to_set toks;
                 is_entity := looks_like_entity toks; entry := e |}).
  split; simpl.
  - intros it Hit. apply elem_of_app in Hit as [Hit|Hit]; [by apply Hitems|].
    apply list_elem_of_singleton in Hit as ->. by repeat split.
  - intros t i. unfold posting. simpl. rewrite post_tokens_member.
    fold (posting st t). rewrite Hpost, (Hiter _ t), elem_of_list_to_set.
    split.
    + intros [(Hlen & it & Hit & Ht) | (-> & Ht & Hlen)].
      * split; [done|]. exists it. split; [|done].
        rewrite lookup_app_l; [done|]. by eapply lookup_lt_Some.
      * split; [done|]. exists new. split; [|done].
        by rewrite lookup_app_r, Nat.sub_diag.
    + intros (Hlen & it & Hit & Ht).
      apply lookup_app_Some in Hit as [Hit | [Hge Hit]].
      * left. eauto.
      * right. apply list_lookup_singleton_Some in Hit as [Hi <-].
        split; [lia|]. done.
  - intros t. rewrite post_tokens_dom, Hkeys, (Hiter _ t), elem_of_list_to_set.
    split.
    + intros [(Hlen & it & Hit & Ht) | (Ht & Hlen)].
      * split; [done|]. exists it. split; [|done]. apply elem_of_app. by left.
      * split; [done|]. exists new. split; [|done]. apply elem_of_app. right.
        by apply list_elem_of_singleton.
    + intros (Hlen & it & Hit & Ht).
      apply elem_of_app in Hit as [Hit|Hit]; [left; eauto|].
      apply list_elem_of_singleton in Hit as ->. by right.
  - intros k e'. rewrite setdefault_lookup. split.
    + destruct (mp st !! k) as [e0|] eqn:Hk.
      * intros [= <-]. apply Hmp in Hk as (i & it & Hit & Hn & He & Hmin).
        exists i, it. pose proof (lookup_lt_Some _ _ _ Hit) as Hlt.
        rewrite lookup_app_l by done. repeat split; try done.
        intros j it' Hj Hit'. rewrite lookup_app_l in Hit' by lia. by eapply Hmin.
      * case_decide as Heq; [|done]. intros [= <-]. subst k.
        exists (length (items st)), new.
        rewrite lookup_app_r, Nat.sub_diag by done. repeat split.
        intros j it' Hj Hit' Hn. rewrite lookup_app_l in Hit' by done.
        assert (is_Some (mp st !! nm)) as [e0 He0]; [|congruence].
        destruct (first_with_norm (items st) nm) as (i & it & Hi & Hni & Hmin);
          [by eauto|].
        exists (entry it). apply Hmp. by exists i, it.
    + intros (i & it & Hit & Hn & He & Hmin).
      apply lookup_app_Some in Hit as [Hit | [Hge Hit]].
      * assert (mp st !! k = Some e') as ->; [|done].
        apply Hmp. exists i, it. repeat split; try done.
        intros j it' Hj Hit'. apply (Hmin j it' Hj).
        rewrite lookup_app_l; [done|]. apply lookup_lt_Some in Hit. lia.
      * apply list_lookup_singleton_Some in Hit as [Hi <-]. simpl in *. subst k e'.
        destruct (mp st !! nm) as [e0|] eqn:Hk.
        -- exfalso. apply Hmp in Hk as (j & it' & Hit' & Hn' & _).
           apply (Hmin j it'); [|by rewrite lookup_app_l by (by eapply lookup_lt_Some)|done].
           apply lookup_lt_Some in Hit'. lia.
        -- by rewrite decide_True.
  - by rewrite fmap_app, Hnames.
Qed.

Lemma build_ofac_name_index_inv es : index_inv (build_ofac_name_index es).
Proof.
  unfold build_ofac_name_index.
  generalize empty_index_inv. generalize empty_index.
  induction es as [|e es IH]; intros st Hst; simpl; [done|].
  apply IH. by apply index_entry_inv.
Qed.

End Builder.

Section PostingKeys.
Context `{Platform}.

(** X7: in a built index every key of the postings has at least three
    characters, the keys are exactly the tokens of at least three characters
    of the indexed items, and the token set of an item holds all its tokens,
    the two-character ones included. *)
Theorem token_postings_keys (es : list Entry) :
  iter_tokens_faithful →
  let idx := build_ofac_name_index es in
  (∀ t, t ∈ dom (token_to_ids idx) → 3 ≤ length t)
  ∧ (∀ t, t ∈ dom (token_to_ids idx) ↔
          3 ≤ length t ∧ ∃ it, it ∈ items idx ∧ t ∈ tokens it)
  ∧ (∀ it, it ∈ items idx →
           token_set it = list_to_set (tokens it)
           ∧ ∀ t, t ∈ tokens it → 2 ≤ length t ∧ t ∈ token_set it).
Proof.
  intros Hiter idx.
  pose proof (build_ofac_name_index_inv Hiter es) as [Hitems _ Hkeys _ _].
  fold idx in Hitems, Hkeys.
  split; [|split].
  - intros t Ht. by apply Hkeys in Ht as [? _].
  - by apply Hkeys.
  - intros it Hit. apply Hitems in Hit as (_ & _ & Htok & _ & Hset & _).
    split; [done|]. intros t Ht. split.
    + rewrite Htok in Ht. unfold tokenize_name in Ht.
      by apply list_elem_of_filter in Ht as [? _].
    + rewrite Hset. by apply elem_of_list_to_set.
Qed.

End PostingKeys.

(** The sample platform meets what is assumed of a platform. *)
Lemma sample_iter_tokens : @iter_tokens_faithful Sample.platform.
Proof. intros X t. apply elem_of_elements. Qed.

Lemma sample_iter_ids : @iter_ids_faithful Sample.platform.
Proof. intros X t. apply elem_of_elements. Qed.

Lemma sample_nfkd : @nfkd_decomposes_enye Sample.platform.
Proof.
  intros s Hin. simpl in Hin. unfold Sample.decomposed in Hin.
  apply list_elem_of_bind in Hin as (c & Hin & _).
  unfold Sample.decompose in Hin.
  destruct (Sample.decompositions !! c) as [d|] eqn:Hd; simpl in Hin.
  - assert (Forall (λ p, ENYE ∉ p.2) Sample.decomposition_table) as Hall.
    { compute_done. }
    apply elem_of_list_to_map_2 in Hd.
    eapply Forall_forall in Hall; [|done]. done.
  - apply list_elem_of_singleton in Hin as <-. by vm_compute in Hd.
Qed.

Lemma letter_or_space_enum c :
  letter_or_space c → c ∈ SPACE :: (N.of_nat <$> seq 65 26).
Proof.
  intros [Hc | ->]; [|left].
  right. unfold is_AZ in Hc. apply andb_true_iff in Hc as [H1 H2].
  apply N.leb_le in H1, H2.
  apply list_elem_of_fmap. exists (N.to_nat c). split; [lia|].
  apply elem_of_seq. lia.
Qed.

Lemma sample_ascii : @ascii_stable Sample.platform.
Proof.
  assert (Forall (λ c, Sample.upper_char c = [c] ∧ Sample.decompose c = [c]
                       ∧ Sample.combining_class c = 0%N)
                 (SPACE :: (N.of_nat <$> seq 65 26))) as Hall.
  { compute_done. }
  intros s Hs. simpl. unfold Sample.upper, Sample.decomposed.
  induction Hs as [|c s Hc Hs (IH1 & IH2 & IH3)]; [by repeat split|].
  apply letter_or_space_enum in Hc.
  eapply Forall_forall in Hall as (Hu & Hd & Hcc); [|done].
  rewrite !bind_cons, IH1, IH2, Hu, Hd. repeat split. by constructor.
Qed.

Lemma token_postings_keys_witness :
  @iter_tokens_faithful Sample.platform
  ∧ let idx := @build_ofac_name_index Sample.platform roster in
    (∀ t, t ∈ dom (token_to_ids idx) → 3 ≤ length t)
    ∧ (∀ t, t ∈ dom (token_to_ids idx) ↔
            3 ≤ length t ∧ ∃ it, it ∈ items idx ∧ t ∈ tokens it)
    ∧ (∀ it, it ∈ items idx →
             token_set it = list_to_set (tokens it)
             ∧ ∀ t, t ∈ tokens it → 2 ≤ length t ∧ t ∈ token_set it).
Proof.
  split; [exact sample_iter_tokens|].
  exact (@token_postings_keys Sample.platform roster sample_iter_tokens).
Defined.

Section Loops.
Context `{Platform}.

Lemma gate_rejects_spec (q_set : gset str) (overlap : nat) :
  gate_rejects q_set overlap = false ↔ 2 ≤ overlap.
Proof.
  unfold gate_rejects. rewrite orb_false_iff, andb_false_iff.
  rewrite !bool_decide_eq_false. split; [intros [? _]; lia|]. intros ?. split; [lia|right; lia].
Qed.

Lemma Qleb_le x y : Qleb x y = true ↔ (x <= y)%Q.
Proof. apply Qle_bool_iff. Qed.

Lemma Qltb_lt x y : Qltb x y = true ↔ (x < y)%Q.
Proof.
  unfold Qltb. rewrite negb_true_iff. rewrite <- not_true_iff_false, Qle_bool_iff.
  split; [apply Qnot_le_lt | apply Qlt_not_le].
Qed.

(** The loop of [fuzzy_top_matches] appends, in order, the matches of the
    candidates that pass the gate and reach the threshold. *)
Lemma scored_loop_ok name min_score idx cand_ids scored :
  ids_in_range idx cand_ids →
  scored_loop (query name) (query_set name)
    (looks_like_entity (query_tokens name)) min_score (items idx) cand_ids scored
  = Ok (scored ++
        (match_of name <$>
           filter (λ it, (min_score <= item_score name it)%Q)
             (filter (passes_gate name)
                (omap (λ cid, items idx !! cid) cand_ids)))).
Proof.
  intros Hr. revert scored.
  induction Hr as [|cid cand_ids [it Hit] _ IH]; intros scored; simpl.
  - by rewrite app_nil_r.
  - rewrite Hit. simpl.
    destruct (gate_rejects _ _) eqn:Hgate.
    + rewrite IH. rewrite filter_cons_False; [done|].
      unfold passes_gate. intros Hp.
      apply (proj2 (gate_rejects_spec (query_set name) _)) in Hp. congruence.
    + apply gate_rejects_spec in Hgate.
      rewrite IH. rewrite (filter_cons_True (passes_gate name)) by done.
      fold (item_score name it).
      destruct (Qleb min_score (item_score name it)) eqn:Hms.
      * apply Qleb_le in Hms. rewrite filter_cons_True by done.
        by rewrite fmap_cons, <- app_assoc.
      * rewrite filter_cons_False; [done|].
        intros Hle. apply Qleb_le in Hle. congruence.
Qed.

Lemma scored_loop_error q q_set q_is_entity min_score its cand_ids scored :
  ¬ Forall (λ cid, is_Some (its !! cid)) cand_ids →
  scored_loop q q_set q_is_entity min_score its cand_ids scored = IndexError.
Proof.
  revert scored. induction cand_ids as [|cid cand_ids IH]; intros scored Hn; simpl.
  - destruct Hn. constructor.
  - destruct (its !! cid) as [it|] eqn:Hit; [|done].
    assert (¬ Forall (λ cid, is_Some (its !! cid)) cand_ids) as Hn'.
    { intros Hall. apply Hn. constructor; [by eexists | done]. }
    destruct (gate_rejects _ _); by apply IH.
Qed.

End Loops.

Section Sorting.
Context {A : Type} (leb : A → A → bool).

Lemma insert_sorted_perm x l : insert_sorted leb x l ≡ₚ x :: l.
Proof.
  induction l as [|y l IH]; simpl; [done|].
  destruct (leb y x); [|done]. rewrite IH. apply Permutation_swap.
Qed.

Lemma foldl_insert_perm acc l :
  foldl (λ acc x, insert_sorted leb x acc) acc l ≡ₚ acc ++ l.
Proof.
  revert acc. induction l as [|x l IH]; intros acc; simpl.
  - by rewrite app_nil_r.
  - rewrite IH, insert_sorted_perm. simpl. apply Permutation_middle.
Qed.

Lemma stable_sort_perm l : stable_sort leb l ≡ₚ l.
Proof. apply (foldl_insert_perm [] l). Qed.

Lemma stable_sort_length l : length (stable_sort leb l) = length l.
Proof. by rewrite stable_sort_perm. Qed.

Hypothesis leb_total : ∀ x y, leb x y = true ∨ leb y x = true.

Lemma insert_sorted_sorted x l :
  Sorted (λ a b, leb a b = true) l →
  Sorted (λ a b, leb a b = true) (insert_sorted leb x l).
Proof.
  induction 1 as [|y l Hs IH Hhd]; simpl; [by repeat constructor|].
  destruct (leb y x) eqn:Hyx.
  - constructor; [done|].
    destruct Hhd as [|z l Hyz]; simpl in *.
    + by constructor.
    + destruct (leb z x); by constructor.
  - constructor; [by constructor|]. constructor.
    by destruct (leb_total x y) as [?|?]; [|congruence].
Qed.

Lemma stable_sort_sorted l : Sorted (λ a b, leb a b = true) (stable_sort leb l).
Proof.
  unfold stable_sort.
  assert (Sorted (λ a b, leb a b = true) []) as Hacc by constructor.
  revert Hacc. generalize (@nil A).
  induction l as [|x l IH]; intros acc Hacc; simpl; [done|].
  apply IH. by apply insert_sorted_sorted.
Qed.

End Sorting.

Section Lookups.
Context `{Platform}.

Lemma str_leb_total a b : str_leb a b = true ∨ str_leb b a = true.
Proof.
  revert b. induction a as [|x a IH]; intros [|y b]; simpl; auto.
  destruct (N.lt_trichotomy x y) as [Hlt|[->|Hgt]].
  - left. apply orb_true_iff. left. by apply N.ltb_lt.
  - rewrite N.ltb_irrefl, N.eqb_refl. simpl. apply IH.
  - right. apply orb_true_iff. left. by apply N.ltb_lt.
Qed.

Lemma rank_leb_total x y : rank_leb x y = true ∨ rank_leb y x = true.
Proof.
  unfold rank_leb.
  destruct (Qlt_le_dec (y.1.2) (x.1.2)) as [Hlt|Hle].
  { left. apply orb_true_iff. left. by apply Qltb_lt. }
  destruct (Qlt_le_dec (x.1.2) (y.1.2)) as [Hlt|Hle'].
  { right. apply orb_true_iff. left. by apply Qltb_lt. }
  assert (x.1.2 == y.1.2)%Q as Heq by (by apply Qle_antisym).
  destruct (str_leb_total (x.1.1) (y.1.1)) as [Hs|Hs]; [left|right];
    apply orb_true_iff; right; apply andb_true_iff; split; try done;
    apply Qeq_bool_iff; [done | by symmetry].
Qed.

Lemma ranked_sorted name idx min_score :
  Sorted (λ a b, rank_leb a b = true) (ranked name idx min_score).
Proof. apply stable_sort_sorted, rank_leb_total. Qed.

Lemma ranked_perm name idx min_score :
  ranked name idx min_score ≡ₚ
  match_of name <$>
    filter (λ it, (min_score <= item_score name it)%Q) (survivors name idx).
Proof. apply stable_sort_perm. Qed.

Lemma too_short_bool name :
  bool_decide (normalize_name name = [])
  || bool_decide (length (tokenize_name (normalize_name name)) < 2) = true
  ↔ too_short name.
Proof.
  unfold too_short, query_tokens, query.
  rewrite orb_true_iff, !bool_decide_eq_true. done.
Qed.

Lemma fuzzy_top_matches_too_short name idx top_k min_score :
  too_short name → fuzzy_top_matches name idx top_k min_score = Ok [].
Proof.
  intros Hs. unfold fuzzy_top_matches.
  apply too_short_bool in Hs. by rewrite Hs.
Qed.

Lemma fuzzy_top_matches_ok name idx top_k min_score :
  ¬ too_short name →
  ids_in_range idx (_candidate_ids_for_query (query_tokens name) idx 5000) →
  fuzzy_top_matches name idx top_k min_score
  = Ok (take (cap top_k) (ranked name idx min_score)).
Proof.
  intros Hs Hr. unfold fuzzy_top_matches.
  rewrite (proj1 (not_true_iff_false _) (λ Hb, Hs (proj1 (too_short_bool name) Hb))).
  pose proof (scored_loop_ok name min_score idx _ [] Hr) as Hl.
  unfold ranked, survivors, candidates, query_set, query_tokens, query in *.
  case_bool_decide as Hc.
  - rewrite Hc. by destruct (cap top_k).
  - by rewrite Hl.
Qed.

Lemma fuzzy_top_matches_error name idx top_k min_score :
  ¬ too_short name →
  ¬ ids_in_range idx (_candidate_ids_for_query (query_tokens name) idx 5000) →
  fuzzy_top_matches name idx top_k min_score = IndexError.
Proof.
  intros Hs Hr. unfold fuzzy_top_matches.
  rewrite (proj1 (not_true_iff_false _) (λ Hb, Hs (proj1 (too_short_bool name) Hb))).
  unfold ids_in_range, query_tokens, query in Hr.
  case_bool_decide as Hc.
  - destruct Hr. rewrite Hc. constructor.
  - by rewrite scored_loop_error.
Qed.

End Lookups.

Section BestMatch.
Context `{Platform}.

Lemma best_loop_ok name idx cand_ids best :
  ids_in_range idx cand_ids →
  best_loop (query name) (query_set name)
    (looks_like_entity (query_tokens name)) (items idx) cand_ids best
  = Ok (foldl (pick name) best
          (filter (passes_gate name) (omap (λ cid, items idx !! cid) cand_ids))).
Proof.
  intros Hr. revert best.
  induction Hr as [|cid cand_ids [it Hit] _ IH]; intros best; simpl; [done|].
  rewrite Hit. simpl.
  destruct (gate_rejects _ _) eqn:Hgate.
  - rewrite IH. rewrite filter_cons_False; [done|].
    unfold passes_gate. intros Hp.
    apply (proj2 (gate_rejects_spec (query_set name) _)) in Hp. congruence.
  - apply gate_rejects_spec in Hgate.
    rewrite IH. by rewrite (filter_cons_True (passes_gate name)) by done.
Qed.

Lemma best_loop_error q q_set q_is_entity its cand_ids best :
  ¬ Forall (λ cid, is_Some (its !! cid)) cand_ids →
  best_loop q q_set q_is_entity its cand_ids best = IndexError.
Proof.
  revert best. induction cand_ids as [|cid cand_ids IH]; intros best Hn; simpl.
  - destruct Hn. constructor.
  - destruct (its !! cid) as [it|] eqn:Hit; [|done].
    assert (¬ Forall (λ cid, is_Some (its !! cid)) cand_ids) as Hn'.
    { intros Hall. apply Hn. constructor; [by eexists | done]. }
    destruct (gate_rejects _ _); by apply IH.
Qed.

(** The selection keeps a maximum: what is left is the starting value or
    comes from an item of the list, and no item of the list scores higher. *)
Lemma foldl_pick_Some name l best s n e :
  foldl (pick name) best l = Some (s, n, e) →
  (best = Some (s, n, e)
   ∨ ∃ it, it ∈ l ∧ s = item_score name it ∧ n = norm it ∧ e = entry it)
  ∧ (∀ it, it ∈ l → (item_score name it <= s)%Q)
  ∧ (∀ s0 n0 e0, best = Some (s0, n0, e0) → (s0 <= s)%Q).
Proof.
  revert best. induction l as [|it l IH]; intros best Hf; simpl in Hf.
  - subst best. split; [by left|]. split.
    + intros it Hit. by apply elem_of_nil in Hit.
    + intros s0 n0 e0 [= -> -> ->]. apply Qle_refl.
  - apply IH in Hf as (Hfrom & Hmax & Hprev).
    assert (item_score name it <= s)%Q as Hit.
    { unfold pick in Hprev. destruct best as [[[b nb] eb]|].
      - destruct (Qltb b (item_score name it)) eqn:Hb.
        + by eapply Hprev.
        + apply not_true_iff_false in Hb. rewrite Qltb_lt in Hb.
          apply Qnot_lt_le in Hb. eapply Qle_trans; [done|]. by eapply Hprev.
      - by eapply Hprev. }
    split; [|split].
    + destruct Hfrom as [Hpick | (it' & Hin & ?)].
      * unfold pick in Hpick. destruct best as [[[b nb] eb]|].
        -- destruct (Qltb b (item_score name it)); [|by left].
           injection Hpick as <- <- <-. right. exists it. split; [left|done].
        -- injection Hpick as <- <- <-. right. exists it. split; [left|done].
      * right. exists it'. split; [by right|done].
    + intros it' Hin. apply elem_of_cons in Hin as [->|Hin]; [done | by apply Hmax].
    + intros s0 n0 e0 ->. unfold pick in Hprev.
      destruct (Qltb s0 (item_score name it)) eqn:Hb.
      * apply Qltb_lt in Hb. eapply Qle_trans; [by apply Qlt_le_weak|].
        by eapply Hprev.
      * by eapply Hprev.
Qed.

Lemma foldl_pick_None name l best :
  foldl (pick name) best l = None ↔ best = None ∧ l = [].
Proof.
  split; [|by intros [-> ->]].
  revert best. induction l as [|it l IH]; intros best Hf; simpl in Hf; [done|].
  apply IH in Hf as [Hp _]. unfold pick in Hp.
  destruct best as [[[b nb] eb]|]; [destruct (Qltb _ _)|]; done.
Qed.

Lemma fuzzy_match_empty name idx min_score :
  query name = [] → fuzzy_match name idx min_score = Ok None.
Proof.
  unfold query, fuzzy_match. intros ->. done.
Qed.

Lemma fuzzy_match_exact name idx min_score e :
  query name ≠ [] → mp idx !! query name = Some e →
  fuzzy_match name idx min_score = Ok (Some (query name, 100%Q, e)).
Proof.
  unfold query, fuzzy_match. intros Hq ->.
  by rewrite bool_decide_eq_false_2.
Qed.

Lemma fuzzy_match_short name idx min_score :
  mp idx !! query name = None → length (query_tokens name) < 2 →
  fuzzy_match name idx min_score = Ok None.
Proof.
  unfold query_tokens, query, fuzzy_match. intros -> Hlen.
  case_bool_decide; [done|]. by rewrite bool_decide_eq_true_2.
Qed.

Lemma fuzzy_match_select name idx min_score :
  query name ≠ [] → mp idx !! query name = None →
  ¬ length (query_tokens name) < 2 →
  ids_in_range idx (_candidate_ids_for_query (query_tokens name) idx 5000) →
  fuzzy_match name idx min_score = Ok (select min_score (best_of name idx)).
Proof.
  intros Hq Hmp Hlen Hr.
  pose proof (best_loop_ok name idx _ None Hr) as Hl.
  unfold best_of, survivors, candidates, query_set, query_tokens, query, fuzzy_match in *.
  rewrite Hmp, !bool_decide_eq_false_2 by done.
  case_bool_decide as Hc.
  - by rewrite Hc.
  - rewrite Hl. simpl. unfold select.
    destruct (foldl _ _ _) as [[[s n] e]|]; [|done]. by destruct (Qleb _ _).
Qed.

Lemma fuzzy_match_error name idx min_score :
  query name ≠ [] → mp idx !! query name = None →
  ¬ length (query_tokens name) < 2 →
  ¬ ids_in_range idx (_candidate_ids_for_query (query_tokens name) idx 5000) →
  fuzzy_match name idx min_score = IndexError.
Proof.
  intros Hq Hmp Hlen Hr.
  unfold ids_in_range, query_tokens, query, fuzzy_match in *.
  rewrite Hmp, !bool_decide_eq_false_2 by done.
  case_bool_decide as Hc.
  - destruct Hr. rewrite Hc. constructor.
  - by rewrite best_loop_error.
Qed.

End BestMatch.

Section Retriever.
Context `{Platform}.

(** The postings collected for a query: the non-empty posting sets of its
    tokens of at least three characters. *)
Lemma query_postings_elem (m : gmap str (gset nat)) (q_tokens : list str)
    (ids : gset nat) :
  iter_tokens_faithful →
  ids ∈ query_postings m q_tokens ↔
  ∃ t, t ∈ q_tokens ∧ 3 ≤ length t ∧ m !! t = Some ids ∧ ids ≠ ∅.
Proof.
  intros Hiter. unfold query_postings.
  assert (∀ l acc,
    ids ∈ foldl (λ postings t,
             if bool_decide (length t < 3) then postings else
             match m !! t with
             | Some ids => if bool_decide (ids = ∅) then postings
                           else postings ++ [ids]
             | None => postings
             end) acc l
    ↔ ids ∈ acc ∨ ∃ t, t ∈ l ∧ 3 ≤ length t ∧ m !! t = Some ids ∧ ids ≠ ∅)
    as Hfold.
  { induction l as [|u l IH]; intros acc; simpl.
    - split; [by left|]. intros [?|(t & Ht & _)]; [done|]. by apply elem_of_nil in Ht.
    - rewrite IH. split.
      + intros [Hacc | (t & Ht & ?)]; [|right; exists t; split; [by right|done]].
        case_bool_decide as Hlen; [by left|].
        destruct (m !! u) as [ids'|] eqn:Hu; [|by left].
        case_bool_decide as Hemp; [by left|].
        apply elem_of_app in Hacc as [?|Hin]; [by left|].
        apply list_elem_of_singleton in Hin as ->.
        right. exists u. split; [left|]. split; [lia|done].
      + intros [Hacc | (t & Ht & Hlen & Hm & Hne)].
        * left. case_bool_decide; [done|].
          destruct (m !! u); [|done]. case_bool_decide; [done|].
          apply elem_of_app. by left.
        * apply elem_of_cons in Ht as [->|Ht]; [|right; by exists t].
          left. rewrite bool_decide_eq_false_2 by lia. rewrite Hm.
          rewrite bool_decide_eq_false_2 by done.
          apply elem_of_app. right. by apply list_elem_of_singleton. }
  rewrite Hfold. split.
  - intros [Hnil | (t & Ht & ?)]; [by apply elem_of_nil in Hnil|].
    exists t. split; [|done]. by apply Hiter, elem_of_list_to_set in Ht.
  - intros (t & Ht & ?). right. exists t. split; [|done].
    by apply Hiter, elem_of_list_to_set.
Qed.

(** Narrowing only ever leaves ids that some posting holds... *)
Lemma narrow_pool_upper max_pool pool rest i :
  i ∈ narrow_pool max_pool pool rest →
  i ∈ pool ∨ ∃ ids, ids ∈ rest ∧ i ∈ ids.
Proof.
  revert pool. induction rest as [|ids rest IH]; intros pool; simpl; [by left|].
  set (pool' := if bool_decide (pool ∩ ids = ∅) then pool ∪ ids else pool ∩ ids).
  assert (i ∈ pool' → i ∈ pool ∨ i ∈ ids) as Hstep.
  { unfold pool'. case_bool_decide; set_solver. }
  intros Hi.
  assert (i ∈ pool' ∨ ∃ ids0, ids0 ∈ rest ∧ i ∈ ids0) as [Hp | (ids0 & Hin & ?)].
  { case_bool_decide; [by left | by apply IH]. }
  - apply Hstep in Hp as [?|?]; [by left|]. right. exists ids. split; [left|done].
  - right. exists ids0. split; [by right|done].
Qed.

(** ... and keeps every id that all of them hold. *)
Lemma narrow_pool_lower max_pool pool rest i :
  i ∈ pool → (∀ ids, ids ∈ rest → i ∈ ids) →
  i ∈ narrow_pool max_pool pool rest.
Proof.
  revert pool. induction rest as [|ids rest IH]; intros pool Hp Hall; simpl; [done|].
  set (pool' := if bool_decide (pool ∩ ids = ∅) then pool ∪ ids else pool ∩ ids).
  assert (i ∈ pool') as Hp'.
  { unfold pool'. assert (i ∈ ids) by (apply Hall; left).
    case_bool_decide; set_solver. }
  case_bool_decide; [done|]. apply IH; [done|].
  intros ids0 Hin. apply Hall. by right.
Qed.

Lemma candidate_ids_upper q_tokens idx max_pool i :
  iter_tokens_faithful → iter_ids_faithful →
  i ∈ _candidate_ids_for_query q_tokens idx max_pool →
  ∃ t, t ∈ q_tokens ∧ 3 ≤ length t ∧ i ∈ posting idx t.
Proof.
  intros Htok Hids. unfold _candidate_ids_for_query.
  pose proof (stable_sort_perm (λ a b : gset nat, bool_decide (size a ≤ size b))
                (query_postings (token_to_ids idx) q_tokens)) as Hperm.
  destruct (query_postings (token_to_ids idx) q_tokens) as [|p ps] eqn:Hq.
  { intros Hi. by apply elem_of_nil in Hi. }
  destruct (stable_sort _ _) as [|p0 rest]; [intros Hi; by apply elem_of_nil in Hi|].
  intros Hi. apply Hids in Hi.
  assert (∃ ids, ids ∈ p0 :: rest ∧ i ∈ ids) as (ids & Hin & Hi').
  { apply narrow_pool_upper in Hi as [?|(ids & ? & ?)].
    - exists p0. split; [left|done].
    - exists ids. split; [by right|done]. }
  rewrite Hperm, <- Hq in Hin.
  apply (query_postings_elem _ _ _ Htok) in Hin as (t & Ht & Hlen & Hm & _).
  exists t. split; [done|]. split; [done|]. unfold posting. by rewrite Hm.
Qed.

Lemma candidate_ids_lower q_tokens idx max_pool i :
  iter_tokens_faithful → iter_ids_faithful →
  (∃ t, t ∈ q_tokens ∧ 3 ≤ length t) →
  (∀ t, t ∈ q_tokens → 3 ≤ length t → i ∈ posting idx t) →
  i ∈ _candidate_ids_for_query q_tokens idx max_pool.
Proof.
  intros Htok Hids (t0 & Ht0 & Hlen0) Hall. unfold _candidate_ids_for_query.
  pose proof (stable_sort_perm (λ a b : gset nat, bool_decide (size a ≤ size b))
                (query_postings (token_to_ids idx) q_tokens)) as Hperm.
  assert (∀ ids, ids ∈ query_postings (token_to_ids idx) q_tokens → i ∈ ids)
    as Hevery.
  { intros ids Hin.
    apply (query_postings_elem _ _ _ Htok) in Hin as (t & Ht & Hlen & Hm & _).
    specialize (Hall t Ht Hlen). unfold posting in Hall. by rewrite Hm in Hall. }
  assert (∃ ids, ids ∈ query_postings (token_to_ids idx) q_tokens) as [ids0 Hin0].
  { specialize (Hall t0 Ht0 Hlen0). unfold posting in Hall.
    destruct (token_to_ids idx !! t0) as [ids|] eqn:Hm; [|set_solver].
    exists ids. apply (query_postings_elem _ _ _ Htok).
    exists t0. repeat split; try done. set_solver. }
  destruct (query_postings (token_to_ids idx) q_tokens) as [|p ps] eqn:Hq.
  { by apply elem_of_nil in Hin0. }
  destruct (stable_sort _ _) as [|p0 rest].
  { apply Permutation_nil_cons in Hperm. done. }
  apply Hids. apply narrow_pool_lower.
  - apply Hevery. rewrite <- Hperm. left.
  - intros ids Hin. apply Hevery. rewrite <- Hperm. by right.
Qed.

(** In a built index the candidate ids are positions of [items]. *)
Lemma built_ids_in_range es q_tokens max_pool :
  iter_tokens_faithful → iter_ids_faithful →
  ids_in_range (build_ofac_name_index es)
    (_candidate_ids_for_query q_tokens (build_ofac_name_index es) max_pool).
Proof.
  intros Htok Hids. apply Forall_forall. intros i Hi.
  apply candidate_ids_upper in Hi as (t & _ & _ & Hi); [|done..].
  apply (inv_postings _ (build_ofac_name_index_inv Htok es)) in Hi
    as (_ & it & Hit & _).
  by exists it.
Qed.

End Retriever.

Section Gate.
Context `{Platform}.

Lemma size_list_to_set_le (l : list str) :
  size (list_to_set l : gset str) ≤ length l.
Proof.
  induction l as [|x l IH].
  - by rewrite list_to_set_nil, size_empty.
  - rewrite list_to_set_cons, size_union_alt, size_singleton. cbn [length].
    assert (list_to_set l ∖ {[x]} ⊆ (list_to_set l : gset str)) as Hsub
      by set_solver.
    apply subseteq_size in Hsub. lia.
Qed.

Lemma query_empty_tokens name : query name = [] → query_tokens name = [].
Proof. unfold query_tokens. by intros ->. Qed.

Lemma too_short_tokens name : too_short name ↔ length (query_tokens name) < 2.
Proof.
  split; [|by right].
  intros [Hq | Hlen]; [|done]. rewrite (query_empty_tokens name Hq). simpl. lia.
Qed.

(** A query of fewer than two tokens shares fewer than two tokens with any
    item. *)
Lemma too_short_fails_gate name it : too_short name → ¬ passes_gate name it.
Proof.
  intros Hs%too_short_tokens. unfold passes_gate, query_set.
  pose proof (size_list_to_set_le (query_tokens name)).
  assert (list_to_set (query_tokens name) ∩ token_set it
          ⊆ (list_to_set (query_tokens name) : gset str)) as Hsub by set_solver.
  apply subseteq_size in Hsub. lia.
Qed.

Lemma too_short_no_survivors name idx : too_short name → survivors name idx = [].
Proof.
  intros Hs. unfold survivors.
  induction (candidates name idx) as [|it l IH]; [done|].
  rewrite filter_cons_False; [done|]. by apply too_short_fails_gate.
Qed.

Lemma survivors_items name idx it :
  it ∈ survivors name idx → it ∈ items idx ∧ passes_gate name it.
Proof.
  unfold survivors, candidates. intros Hin.
  apply list_elem_of_filter in Hin as [Hg Hin]. split; [|done].
  apply list_elem_of_omap in Hin as (cid & _ & Hit).
  by eapply list_elem_of_lookup_2.
Qed.

(** What a ranked list is made of. *)
Lemma ranked_elem name idx min_score m :
  m ∈ ranked name idx min_score ↔
  ∃ it, it ∈ survivors name idx ∧ (min_score <= item_score name it)%Q
        ∧ m = match_of name it.
Proof.
  rewrite ranked_perm, list_elem_of_fmap. split.
  - intros (it & -> & Hin). apply list_elem_of_filter in Hin as [? ?]. by exists it.
  - intros (it & Hin & Hms & ->). exists it. split; [done|].
    by apply list_elem_of_filter.
Qed.

Lemma length_filter_mono {A} (P Q : A → Prop)
    `{∀ x, Decision (P x)} `{∀ x, Decision (Q x)} (l : list A) :
  (∀ x, P x → Q x) → length (filter P l) ≤ length (filter Q l).
Proof.
  intros HPQ. induction l as [|x l IH]; [done|].
  destruct (decide (P x)) as [HP|HP].
  - rewrite !filter_cons_True by auto. simpl. lia.
  - rewrite (filter_cons_False P) by done.
    destruct (decide (Q x)); [rewrite filter_cons_True by done; simpl; lia|].
    by rewrite filter_cons_False.
Qed.

Lemma elem_of_take_inv {A} (x : A) n l : x ∈ take n l → x ∈ l.
Proof.
  intros (i & Hi & _)%elem_of_take. by eapply list_elem_of_lookup_2.
Qed.

Lemma ranked_length_mono name idx min_score1 min_score2 :
  (min_score1 <= min_score2)%Q →
  length (ranked name idx min_score2) ≤ length (ranked name idx min_score1).
Proof.
  intros Hle. unfold ranked. rewrite !stable_sort_length, !length_fmap.
  apply length_filter_mono. intros it Hit. by eapply Qle_trans.
Qed.

End Gate.

Section Gatekeeping.
Context `{Platform}.

(** X11: a query that normalizes to fewer than two tokens gets
    the empty sequence from [fuzzy_top_matches], whatever the index, and no
    match from [fuzzy_match] unless its normalized form is a key of the
    canonical map, in which case the exact-match short circuit answers. *)
Theorem single_token_rejection (idx : Index) (name : str) (top_k : Z)
    (min_score : Q) :
  length (tokenize_name (normalize_name name)) < 2 →
  fuzzy_top_matches name idx top_k min_score = Ok []
  ∧ (mp idx !! normalize_name name = None →
     fuzzy_match name idx min_score = Ok None)
  ∧ (normalize_name name = [] → fuzzy_match name idx min_score = Ok None)
  ∧ (∀ e, normalize_name name ≠ [] → mp idx !! normalize_name name = Some e →
          fuzzy_match name idx min_score
          = Ok (Some (normalize_name name, 100%Q, e))).
Proof.
  intros Hlen. split; [|split; [|split]].
  - apply fuzzy_top_matches_too_short. by right.
  - intros Hmp. by apply fuzzy_match_short.
  - apply fuzzy_match_empty.
  - intros e Hq Hmp. by apply fuzzy_match_exact.
Qed.

(** X12: every match [fuzzy_top_matches] returns, and every match
    [fuzzy_match] returns otherwise than through the exact-match short
    circuit, is the match of an indexed item that shares at least two tokens
    with the query; in a built index the tokens of the returned canonical
    name themselves share at least two tokens with the query. *)
Theorem returned_matches_pass_gate (idx : Index) (name : str) (top_k : Z)
    (min_score : Q) :
  (∀ l m, fuzzy_top_matches name idx top_k min_score = Ok l → m ∈ l →
     ∃ it, it ∈ items idx ∧ m = match_of name it
           ∧ 2 ≤ size (query_set name ∩ token_set it)
           ∧ (index_inv idx →
              2 ≤ size (query_set name ∩ list_to_set (tokenize_name m.1.1))))
  ∧ (∀ m, fuzzy_match name idx min_score = Ok (Some m) →
       mp idx !! normalize_name name = None →
     ∃ it, it ∈ items idx ∧ m = match_of name it
           ∧ 2 ≤ size (query_set name ∩ token_set it)
           ∧ (index_inv idx →
              2 ≤ size (query_set name ∩ list_to_set (tokenize_name m.1.1)))).
Proof.
  assert (∀ it, it ∈ survivors name idx →
    it ∈ items idx ∧ 2 ≤ size (query_set name ∩ token_set it)
    ∧ (index_inv idx →
       2 ≤ size (query_set name
                 ∩ list_to_set (tokenize_name (match_of name it).1.1))))
    as Hsurv.
  { intros it [Hit Hg]%survivors_items. split; [exact Hit|]. split; [exact Hg|].
    intros Hinv. apply (inv_items _ Hinv) in Hit as (_ & _ & Htok & _ & Hset & _).
    unfold match_of. cbn [fst snd]. rewrite <- Htok, <- Hset. exact Hg. }
  split.
  - intros l m Hres Hm.
    destruct (decide (too_short name)) as [Hs|Hs].
    { rewrite fuzzy_top_matches_too_short in Hres by done.
      injection Hres as <-. by apply elem_of_nil in Hm. }
    destruct (decide (ids_in_range idx
      (_candidate_ids_for_query (query_tokens name) idx 5000))) as [Hr|Hr].
    2: { by rewrite fuzzy_top_matches_error in Hres. }
    rewrite fuzzy_top_matches_ok in Hres by done. injection Hres as <-.
    apply elem_of_take_inv in Hm.
    apply ranked_elem in Hm as (it & Hit & _ & ->).
    exists it. destruct (Hsurv it Hit) as (Hi & Hg & Hb).
    split; [exact Hi|]. split; [reflexivity|]. split; [exact Hg | exact Hb].
  - intros m Hres Hmp.
    destruct (decide (query name = [])) as [Hq|Hq].
    { by rewrite fuzzy_match_empty in Hres. }
    destruct (decide (length (query_tokens name) < 2)) as [Hlen|Hlen].
    { by rewrite fuzzy_match_short in Hres. }
    destruct (decide (ids_in_range idx
      (_candidate_ids_for_query (query_tokens name) idx 5000))) as [Hr|Hr].
    2: { by rewrite fuzzy_match_error in Hres. }
    rewrite fuzzy_match_select in Hres by done. injection Hres as Hres.
    unfold select in Hres.
    destruct (best_of name idx) as [[[s n] e]|] eqn:Hbest; [|done].
    destruct (Qleb min_score s); [|done]. injection Hres as <-.
    unfold best_of in Hbest.
    destruct (foldl_pick_Some _ _ _ _ _ _ Hbest)
      as [[Hnone|(it & Hit & Hs & Hn & He)] _]; [discriminate Hnone|].
    subst s n e.
    exists it. destruct (Hsurv it Hit) as (Hi & Hg & Hb).
    split; [exact Hi|]. split; [reflexivity|]. split; [exact Hg | exact Hb].
Qed.

(** X13: for a fixed query, index and [top_k], raising the threshold never
    makes the sequence returned by [fuzzy_top_matches] longer (and the lookup
    fails for one threshold exactly when it fails for the other). *)
Theorem threshold_monotone (idx : Index) (name : str) (top_k : Z)
    (min_score1 min_score2 : Q) :
  (min_score1 <= min_score2)%Q →
  match fuzzy_top_matches name idx top_k min_score1,
        fuzzy_top_matches name idx top_k min_score2 with
  | Ok l1, Ok l2 => length l2 ≤ length l1
  | IndexError, IndexError => True
  | _, _ => False
  end.
Proof.
  intros Hle.
  destruct (decide (too_short name)) as [Hs|Hs].
  { by rewrite !fuzzy_top_matches_too_short by done. }
  destruct (decide (ids_in_range idx
    (_candidate_ids_for_query (query_tokens name) idx 5000))) as [Hr|Hr].
  - rewrite !fuzzy_top_matches_ok by done. rewrite !length_take.
    pose proof (ranked_length_mono name idx _ _ Hle). lia.
  - by rewrite !fuzzy_top_matches_error by done.
Qed.

End Gatekeeping.

Section Numbers.
Context `{Platform}.


Lemma round_half_even_ge (y : Q) (k : Z) :
  (inject_Z k <= y)%Q → (k ≤ round_half_even y)%Z.
Proof.
  intros Hy. unfold round_half_even.
  assert (k ≤ Qfloor y)%Z as Hf.
  { rewrite <- (Qfloor_Z k). by apply Qfloor_resp_le. }
  destruct (_ ?= _)%Q; [destruct (Z.even _)|..]; lia.
Qed.


Lemma round1_ge (x : Q) (k : Z) : (inject_Z k <= x)%Q → (inject_Z k <= round1 x)%Q.
Proof.
  intros Hx. unfold round1.
  assert (k * 10 ≤ round_half_even (x * 10))%Z as Hr.
  { apply round_half_even_ge. rewrite inject_Z_mult. change (inject_Z 10) with (10#1)%Q. lra. }
  unfold Qle. simpl. lia.
Qed.



End Numbers.

Section Text.

Lemma plain_space_SPACE : plain_space SPACE.
Proof. by intros _. Qed.

Lemma plain_space_other c : is_space c = false → plain_space c.
Proof. intros Hc Hs. congruence. Qed.

Lemma not_space_not_SPACE c : is_space c = false → c ≠ SPACE.
Proof. intros Hc ->. by vm_compute in Hc. Qed.

Lemma sub_space_runs_plain b s : Forall plain_space (sub_space_runs b s).
Proof.
  revert b. induction s as [|c s IH]; intros b; simpl; [constructor|].
  destruct (is_space c) eqn:Hc.
  - destruct b; [apply IH|]. constructor; [apply plain_space_SPACE | apply IH].
  - constructor; [by apply plain_space_other | apply IH].
Qed.

Lemma sub_space_runs_no_head_space s : head (sub_space_runs true s) ≠ Some SPACE.
Proof.
  induction s as [|c s IH]; simpl; [done|].
  destruct (is_space c) eqn:Hc; [done|]. simpl.
  intros [= ->]. by vm_compute in Hc.
Qed.

Lemma sub_space_runs_single b s : single_spaced (sub_space_runs b s).
Proof.
  revert b. induction s as [|c s IH]; intros b; [done|].
  cbn [sub_space_runs].
  destruct (is_space c) eqn:Hc.
  - destruct b; [apply IH|].
    pose proof (sub_space_runs_no_head_space s) as Hhd.
    specialize (IH true).
    destruct (sub_space_runs true s) as [|c2 r]; [done|].
    split; [|done]. intros [_ ->]. done.
  - specialize (IH false).
    destruct (sub_space_runs false s) as [|c2 r]; [done|].
    split; [|done]. intros [-> _]. by vm_compute in Hc.
Qed.

Lemma sub_space_runs_tidy b s :
  Forall plain_space s → single_spaced s →
  (b = true → head s ≠ Some SPACE) →
  sub_space_runs b s = s.
Proof.
  intros Hs. revert b.
  induction Hs as [|c s Hc Hs IH]; intros b Hsingle Hhd; [done|].
  cbn [sub_space_runs].
  assert (single_spaced s) as Hs' by (by eapply single_spaced_tail).
  destruct (is_space c) eqn:Hsp.
  - apply Hc in Hsp as ->.
    destruct b; [by destruct Hhd|].
    f_equal. apply IH; [done|]. intros _.
    destruct s as [|c2 r]; [done|]. simpl.
    intros [= ->]. by destruct Hsingle as [[] _].
  - f_equal. by apply IH.
Qed.

Lemma lstrip_no_head_space s c : head (lstrip s) = Some c → is_space c = false.
Proof.
  induction s as [|c' s IH]; simpl; [done|].
  destruct (is_space c') eqn:Hc; [done|]. simpl. by intros [= <-].
Qed.

Lemma rstrip_no_last_space s c : last (rstrip s) = Some c → is_space c = false.
Proof.
  induction s as [|c' s IH]; simpl; [done|].
  destruct (rstrip s) as [|c2 r] eqn:Hr.
  - destruct (is_space c') eqn:Hc; [done|]. simpl. by intros [= <-].
  - by rewrite last_cons_cons.
Qed.

Lemma rstrip_keeps_head s c :
  head s = Some c → is_space c = false → head (rstrip s) = Some c.
Proof.
  destruct s as [|c' s]; [done|]. simpl. intros [= ->] Hc.
  destruct (rstrip s); [by rewrite Hc | done].
Qed.

Lemma rstrip_head_inv s c : head (rstrip s) = Some c → head s = Some c.
Proof.
  destruct s as [|c' s]; [done|]. simpl.
  destruct (rstrip s); [destruct (is_space c')|]; done.
Qed.

Lemma lstrip_tidy s : Forall plain_space s → head s ≠ Some SPACE → lstrip s = s.
Proof.
  intros Hs Hhd. destruct Hs as [|c s Hc Hs]; [done|]. simpl.
  destruct (is_space c) eqn:Hsp; [|done].
  apply Hc in Hsp as ->. done.
Qed.

Lemma rstrip_tidy s : Forall plain_space s → last s ≠ Some SPACE → rstrip s = s.
Proof.
  induction 1 as [|c s Hc Hs IH]; [done|]. intros Hlast. simpl.
  destruct s as [|c2 s].
  - simpl. destruct (is_space c) eqn:Hsp; [|done].
    apply Hc in Hsp as ->. done.
  - rewrite IH by (by rewrite last_cons_cons in Hlast). done.
Qed.

(** Stripping a string leaves no white space at either end. *)
Lemma strip_ends s :
  (∀ c, head (strip s) = Some c → is_space c = false)
  ∧ (∀ c, last (strip s) = Some c → is_space c = false).
Proof.
  unfold strip. split; intros c Hc.
  - apply rstrip_head_inv in Hc. by eapply lstrip_no_head_space.
  - by eapply rstrip_no_last_space.
Qed.

Lemma strip_is_tidy s : Forall plain_space s → single_spaced s → tidy (strip s).
Proof.
  intros Hs Hsingle. destruct (strip_ends s) as [Hh Hl].
  unfold tidy. split; [|split; [|split]].
  - by apply rstrip_letters, lstrip_letters.
  - intros Hc. apply Hh in Hc. by vm_compute in Hc.
  - intros Hc. apply Hl in Hc. by vm_compute in Hc.
  - by apply rstrip_single_spaced, lstrip_single_spaced.
Qed.

Lemma strip_tidy s : tidy s → strip s = s.
Proof.
  intros (Hs & Hhd & Hlast & _). unfold strip.
  rewrite lstrip_tidy by done. by apply rstrip_tidy.
Qed.

Lemma normalize_text_is_tidy s : tidy (normalize_text s).
Proof.
  apply strip_is_tidy; [apply sub_space_runs_plain | apply sub_space_runs_single].
Qed.

Lemma normalize_text_fixes_tidy s : tidy s → normalize_text s = s.
Proof.
  intros Ht. pose proof Ht as (Hs & Hhd & _ & Hsingle). unfold normalize_text.
  rewrite sub_space_runs_tidy by done. by apply strip_tidy.
Qed.

(** A string of white space only is stripped to nothing. *)
Lemma lstrip_blank s : Forall (λ c, is_space c = true) s → lstrip s = [].
Proof. induction 1 as [|c s Hc _ IH]; simpl; [done|]. by rewrite Hc. Qed.

Lemma strip_blank s : Forall (λ c, is_space c = true) s → strip s = [].
Proof. intros Hs. unfold strip. by rewrite lstrip_blank. Qed.

Lemma sub_space_runs_blank s :
  Forall (λ c, is_space c = true) s → sub_space_runs true s = [].
Proof. induction 1 as [|c s Hc _ IH]; simpl; [done|]. by rewrite Hc. Qed.

Lemma normalize_text_blank s :
  Forall (λ c, is_space c = true) s → normalize_text s = [].
Proof.
  intros Hs. unfold normalize_text. destruct Hs as [|c s Hc Hs]; [done|].
  simpl. rewrite Hc. by rewrite sub_space_runs_blank.
Qed.

End Text.

Section Splitting.

Lemma split_nonempty sep s : split sep s ≠ [].
Proof.
  destruct s as [|c s]; simpl; [done|].
  destruct (c =? sep)%N; [done|]. by destruct (split sep s).
Qed.

(** The pieces hold no separator. *)
Lemma split_pieces sep s : Forall (Forall (λ c, c ≠ sep)) (split sep s).
Proof.
  induction s as [|c s IH]; simpl; [by repeat constructor|].
  destruct (c =? sep)%N eqn:Hc.
  - constructor; [constructor | done].
  - apply N.eqb_neq in Hc.
    destruct (split sep s) as [|w ws]; [by repeat constructor|].
    apply Forall_cons in IH as [Hw Hws]. constructor; [by constructor | done].
Qed.

(** Joining the pieces with the separator gives the string back. *)
Lemma join_split sep s : join [sep] (split sep s) = s.
Proof.
  induction s as [|c s IH]; simpl; [done|].
  destruct (c =? sep)%N eqn:Hc.
  - apply N.eqb_eq in Hc as ->.
    pose proof (split_nonempty sep s) as Hne.
    destruct (split sep s) as [|w ws]; [done|]. simpl in *. by rewrite IH.
  - destruct (split sep s) as [|w ws] eqn:Hs; [by destruct (split_nonempty sep s)|].
    destruct ws as [|w' ws]; simpl in *; by rewrite <- IH.
Qed.

Lemma split_no_sep sep s : Forall (λ c, c ≠ sep) s → split sep s = [s].
Proof.
  induction 1 as [|c s Hc _ IH]; simpl; [done|].
  apply N.eqb_neq in Hc. by rewrite Hc, IH.
Qed.

(** The last piece is the end of the string... *)
Lemma split_last_suffix sep s :
  ∃ init lastw pre,
    split sep s = init ++ [lastw] ∧ s = pre ++ lastw ∧ (init = [] → pre = []).
Proof.
  induction s as [|c s (init & lastw & pre & Hs & Hpre & Hinit)]; simpl.
  { exists [], [], []. done. }
  destruct (c =? sep)%N eqn:Hc.
  - exists ([] :: init), lastw, (c :: pre). rewrite Hs, Hpre. done.
  - rewrite Hs. destruct init as [|i0 init]; simpl.
    + exists [], (c :: lastw), []. rewrite Hpre, (Hinit eq_refl). done.
    + exists ((c :: i0) :: init), lastw, (c :: pre). rewrite Hpre. done.
Qed.

(** ... and what follows the last separator. *)
Lemma split_after_sep sep a b :
  ∃ init, init ≠ [] ∧ split sep (a ++ sep :: b) = init ++ split sep b.
Proof.
  induction a as [|c a (init & Hne & IH)]; simpl.
  - exists [[]]. by rewrite N.eqb_refl.
  - rewrite IH. destruct (c =? sep)%N.
    + by exists ([] :: init).
    + destruct init as [|i0 init]; [done|]. simpl. by exists ((c :: i0) :: init).
Qed.

End Splitting.

Section Namespace.

Lemma _strip_ns_unqualified tag : Forall (λ c, c ≠ RBRACE) tag → _strip_ns tag = tag.
Proof.
  intros Hno. unfold _strip_ns. case_bool_decide as Hin; [|done].
  eapply Forall_forall in Hno; [|done]. done.
Qed.

Lemma _strip_ns_no_brace tag : Forall (λ c, c ≠ RBRACE) (_strip_ns tag).
Proof.
  unfold _strip_ns. case_bool_decide as Hin.
  - pose proof (split_pieces RBRACE tag) as Hall.
    destruct (last (split RBRACE tag)) as [w|] eqn:Hl; [|constructor]. simpl.
    apply last_Some_elem_of in Hl. eapply Forall_forall in Hall; done.
  - apply Forall_forall. intros c Hc ->. done.
Qed.

Lemma _strip_ns_suffix tag : ∃ pre, tag = pre ++ _strip_ns tag.
Proof.
  unfold _strip_ns. case_bool_decide as Hin; [|by exists []].
  destruct (split_last_suffix RBRACE tag) as (init & lastw & pre & Hs & Hpre & _).
  rewrite Hs, last_snoc. simpl. by exists pre.
Qed.

Lemma _strip_ns_qualified ns local :
  Forall (λ c, c ≠ RBRACE) local → _strip_ns (ns ++ [RBRACE] ++ local) = local.
Proof.
  intros Hno. unfold _strip_ns. rewrite bool_decide_eq_true_2.
  2: { apply elem_of_app. right. left. }
  destruct (split_after_sep RBRACE ns local) as (init & Hne & Hs).
  simpl. rewrite Hs, split_no_sep by done. by rewrite last_snoc.
Qed.

End Namespace.

Section Cells.

Lemma replace_crlf_length s : length (replace_crlf s) ≤ length s.
Proof.
  assert (∀ n s, length s ≤ n → length (replace_crlf s) ≤ length s) as Hn.
  { clear s. induction n as [|n IH]; intros [|c [|d s]] Hlen; simpl in *; try lia.
    destruct ((c =? CR) && (d =? LF))%N; simpl.
    - specialize (IH s). lia.
    - specialize (IH (d :: s)). simpl in IH. lia. }
  by apply (Hn (length s)).
Qed.




Lemma slice_to_sublist {A} n (s : list A) : ∃ k, slice_to n s = take k s.
Proof. unfold slice_to. case_bool_decide; eauto. Qed.

Lemma slice_to_length {A} n (s : list A) :
  (0 ≤ n)%Z → (Z.of_nat (length (slice_to n s)) ≤ n)%Z.
Proof.
  intros Hn. unfold slice_to. rewrite bool_decide_eq_true_2 by done.
  rewrite length_take. lia.
Qed.




End Cells.

Section PersonsFacts.
Context (str_lower : str → str).

Lemma persons_loop_shape persons seen out :
  ∃ kept,
    persons_loop str_lower persons seen out = out ++ kept
    ∧ kept `sublist_of` persons
    ∧ NoDup (str_lower <$> kept)
    ∧ Forall (λ p, 3 ≤ length p ∧ str_lower p ∉ seen) kept
    ∧ Forall (λ p, 3 ≤ length p →
                   str_lower p ∈ seen ∨ str_lower p ∈ str_lower <$> kept) persons.
Proof.
  revert seen out. induction persons as [|p rest IH]; intros seen out; simpl.
  { exists []. rewrite app_nil_r. repeat split; constructor. }
  destruct (bool_decide (str_lower p ∉ seen) && bool_decide (3 ≤ length p)) eqn:Hb.
  - apply andb_true_iff in Hb as [Hs Hl].
    apply bool_decide_eq_true in Hs, Hl.
    destruct (IH (seen ∪ {[str_lower p]}) (out ++ [p]))
      as (kept & -> & Hsub & Hnd & Hall & Hcov).
    exists (p :: kept). rewrite <- app_assoc. split; [done|].
    split; [by constructor|]. split; [|split].
    + rewrite fmap_cons. constructor; [|done].
      intros Hin. apply list_elem_of_fmap in Hin as (p' & Hk & Hp').
      eapply Forall_forall in Hall as [_ Hno]; [|done].
      apply Hno. rewrite <- Hk. set_solver.
    + constructor; [done|].
      eapply Forall_impl; [done|]. cbv beta. intros p' [? Hno]. split; [done|]. set_solver.
    + constructor.
      * intros _. right. apply list_elem_of_fmap. exists p. split; [done|left].
      * eapply Forall_impl; [done|]. cbv beta. intros p' Hp' Hlen.
        destruct (Hp' Hlen) as [Hin|Hin].
        -- apply elem_of_union in Hin as [?|Hin]; [by left|].
           apply elem_of_singleton in Hin. right.
           apply list_elem_of_fmap. exists p. split; [done|left].
        -- right. apply list_elem_of_fmap in Hin as (p2 & Hp2 & Hin).
           apply list_elem_of_fmap. exists p2. split; [done|by right].
  - destruct (IH seen out) as (kept & -> & Hsub & Hnd & Hall & Hcov).
    exists kept. split; [done|]. split; [by constructor|]. split; [done|].
    split; [done|]. constructor; [|done].
    intros Hlen. left. apply andb_false_iff in Hb as [Hb|Hb].
    + apply bool_decide_eq_false in Hb. by apply dec_stable.
    + apply bool_decide_eq_false in Hb. done.
Qed.

End PersonsFacts.

Section Reader.

(** A string [strip] leaves alone. *)
Lemma strip_fixed s :
  (∀ c, head s = Some c → is_space c = false) →
  (∀ c, last s = Some c → is_space c = false) →
  strip s = s.
Proof.
  intros Hh Hl. unfold strip.
  assert (lstrip s = s) as ->.
  { destruct s as [|c s]; [done|]. simpl. by rewrite (Hh c eq_refl). }
  clear Hh. induction s as [|c s IH]; [done|]. simpl.
  destruct s as [|c2 s].
  - simpl. by rewrite (Hl c eq_refl).
  - rewrite IH; [done|]. intros c' Hc'. apply Hl. by rewrite last_cons_cons.
Qed.

Lemma strip_idemp s : strip (strip s) = strip s.
Proof. destruct (strip_ends s). by apply strip_fixed. Qed.

Lemma stripped_None : stripped None.
Proof. by intros n. Qed.

Lemma stripped_safe_text e : stripped (Some (_safe_text e)).
Proof. intros n [= <-]. apply strip_idemp. Qed.

Lemma scan_child_stripped st e :
  stripped (f_first st) ∧ stripped (f_last st) ∧ stripped (f_whole st) →
  stripped (f_first (scan_child st e)) ∧ stripped (f_last (scan_child st e))
  ∧ stripped (f_whole (scan_child st e)).
Proof.
  intros (H1 & H2 & H3). unfold scan_child.
  repeat case_bool_decide; simpl; repeat split; auto using stripped_safe_text.
Qed.

Lemma scan_children_stripped st l :
  stripped (f_first st) ∧ stripped (f_last st) ∧ stripped (f_whole st) →
  stripped (f_first (foldl scan_child st l))
  ∧ stripped (f_last (foldl scan_child st l))
  ∧ stripped (f_whole (foldl scan_child st l)).
Proof.
  revert st. induction l as [|e l IH]; intros st Hst; [done|]. simpl.
  by apply IH, scan_child_stripped.
Qed.

Lemma truthy_Some o : truthy o = true → ∃ n, o = Some n ∧ n ≠ [].
Proof. destruct o as [[|c n]|]; [done| |done]. intros _. by eexists. Qed.

Lemma stripped_ends n :
  strip n = n →
  (∀ c, head n = Some c → is_space c = false)
  ∧ (∀ c, last n = Some c → is_space c = false).
Proof. intros <-. apply strip_ends. Qed.

Lemma join_two_stripped a b :
  a ≠ [] → b ≠ [] → strip a = a → strip b = b →
  strip (a ++ lit ", " ++ b) = a ++ lit ", " ++ b.
Proof.
  intros Ha Hb [Hah _]%stripped_ends [_ Hbl]%stripped_ends.
  apply strip_fixed.
  - intros c Hc. apply Hah. by destruct a.
  - intros c Hc. apply Hbl. rewrite !last_app in Hc.
    destruct (last b) eqn:Hlb; [done|]. apply last_None in Hlb. done.
Qed.

(** The name of an entry is a non-empty stripped string, or it is missing or
    empty. *)
Lemma built_name_stripped st :
  stripped (f_first st) → stripped (f_last st) → stripped (f_whole st) →
  truthy (built_name st) = true →
  ∃ n, built_name st = Some n ∧ n ≠ [] ∧ strip n = n.
Proof.
  intros H1 H2 H3 Ht. apply truthy_Some in Ht as (n & Hn & Hne).
  exists n. split; [done|]. split; [done|].
  unfold built_name in Hn. destruct (truthy (f_whole st)) eqn:Hw; [by apply H3|].
  destruct (truthy (f_last st)) eqn:Hl, (truthy (f_first st)) eqn:Hf; simpl in Hn;
    rewrite ?Hl, ?Hf in Hn; simpl in Hn.
  - apply truthy_Some in Hl as (a & Ha & Hane), Hf as (b & Hb & Hbne).
    rewrite Ha, Hb in Hn. simpl in Hn. injection Hn as <-.
    apply join_two_stripped; auto.
  - apply truthy_Some in Hl as (a & Ha & Hane).
    rewrite Ha in Hn. simpl in Hn.
    injection Hn as <-. by apply H2.
  - apply truthy_Some in Hf as (b & Hb & Hbne).
    rewrite Hb in Hn. simpl in Hn. injection Hn as <-. by apply H1.
  - done.
Qed.

Lemma entry_data_name child :
  truthy (name (entry_data child)) = true →
  ∃ n, name (entry_data child) = Some n ∧ n ≠ [] ∧ strip n = n.
Proof.
  unfold entry_data. cbn [name].
  set (st0 := {| f_uid := attrib child !! lit "uid"; f_first := None;
                 f_last := None; f_whole := None; f_typ := None;
                 f_remarks := None |}).
  destruct (scan_children_stripped st0 (children child)) as (H1 & H2 & H3).
  { repeat split; apply stripped_None. }
  by apply built_name_stripped.
Qed.

Lemma deep_name_stripped e :
  truthy (deep_name e) = true →
  ∃ n, deep_name e = Some n ∧ n ≠ [] ∧ strip n = n.
Proof.
  intros Ht. apply truthy_Some in Ht as (n & Hn & Hne).
  exists n. split; [done|]. split; [done|].
  unfold deep_name in Hn. apply fmap_Some in Hn as (e' & _ & ->).
  apply strip_idemp.
Qed.

(** The loops as comprehensions. *)
Lemma collect_loop {A} (P : A → Prop) `{∀ x, Decision (P x)}
    (f : A → Entry) (l : list A) (acc : list Entry) :
  foldl (λ entries x,
           if bool_decide (P x) then
             if truthy (name (f x)) then entries ++ [f x] else entries
           else entries) acc l
  = acc ++ filter (λ e, truthy (name e) = true) (f <$> filter P l).
Proof.
  revert acc. induction l as [|x l IH]; intros acc; simpl.
  { by rewrite app_nil_r. }
  rewrite IH. case_bool_decide as HP.
  - rewrite filter_cons_True by done. rewrite fmap_cons.
    destruct (truthy (name (f x))) eqn:Ht.
    + rewrite filter_cons_True by done. by rewrite <- app_assoc.
    + rewrite filter_cons_False by congruence. done.
  - by rewrite filter_cons_False by done.
Qed.

Lemma first_pass_spec root :
  first_pass root
  = filter (λ e, truthy (name e) = true)
           (entry_data <$> filter is_sdnEntry (iter root)).
Proof. exact (collect_loop is_sdnEntry entry_data (iter root) []). Qed.

Lemma fallback_pass_spec root :
  fallback_pass root
  = filter (λ e, truthy (name e) = true)
      ((λ el, {| uid := attrib el !! lit "uid"; name := deep_name el;
                 type := None; remarks := None |})
         <$> filter is_sdnEntry (findall_below root)).
Proof.
  exact (collect_loop is_sdnEntry
    (λ el, {| uid := attrib el !! lit "uid"; name := deep_name el;
              type := None; remarks := None |}) (findall_below root) []).
Qed.

Lemma length_filter_le {A} (P : A → Prop) `{∀ x, Decision (P x)} (l : list A) :
  length (filter P l) ≤ length l.
Proof.
  induction l as [|x l IH]; [done|].
  destruct (decide (P x)); [rewrite filter_cons_True by done
                           |rewrite filter_cons_False by done]; simpl; lia.
Qed.

Lemma findall_below_filter root :
  length (filter is_sdnEntry (findall_below root))
  ≤ length (filter is_sdnEntry (iter root)).
Proof.
  unfold findall_below. destruct root as [t a x cs]. cbn [iter tail].
  destruct (decide (is_sdnEntry (mkElement t a x cs)));
    [rewrite (filter_cons_True is_sdnEntry) by done
    |rewrite (filter_cons_False is_sdnEntry) by done]; simpl; lia.
Qed.

Lemma parse_sdn_xml_named root :
  Forall (λ e, ∃ n, name e = Some n ∧ n ≠ [] ∧ strip n = n) (parse_sdn_xml root).
Proof.
  unfold parse_sdn_xml. case_bool_decide as He.
  - rewrite fallback_pass_spec. apply Forall_forall. intros e Hin.
    apply list_elem_of_filter in Hin as [Ht Hin].
    apply list_elem_of_fmap in Hin as (el & -> & _).
    simpl in *. by apply deep_name_stripped.
  - rewrite first_pass_spec. apply Forall_forall. intros e Hin.
    apply list_elem_of_filter in Hin as [Ht Hin].
    apply list_elem_of_fmap in Hin as (el & -> & _).
    by apply entry_data_name.
Qed.

Lemma parse_sdn_xml_length root :
  length (parse_sdn_xml root) ≤ length (filter is_sdnEntry (iter root)).
Proof.
  unfold parse_sdn_xml. case_bool_decide as He.
  - rewrite fallback_pass_spec.
    etransitivity; [apply length_filter_le|]. rewrite length_fmap.
    apply findall_below_filter.
  - rewrite first_pass_spec.
    etransitivity; [apply length_filter_le|]. by rewrite length_fmap.
Qed.

End Reader.

Section Tokens.
Context `{Platform}.

Lemma tokenize_name_empty : tokenize_name [] = [].
Proof. reflexivity. Qed.

(** A token has at least two characters, none of them a space. *)
Lemma tokenize_name_tokens s :
  Forall (λ t, 2 ≤ length t ∧ Forall (λ c, c ≠ SPACE) t) (tokenize_name s).
Proof.
  unfold tokenize_name. apply Forall_forall. intros t Ht.
  apply list_elem_of_filter in Ht as [Hlen Ht]. split; [done|].
  pose proof (split_pieces SPACE s) as Hall.
  eapply Forall_forall in Hall; done.
Qed.

(** When every word is long enough, the tokens are the words. *)
Lemma tokenize_name_join s :
  Forall (λ w, 2 ≤ length w) (split SPACE s) →
  join [SPACE] (tokenize_name s) = s.
Proof.
  intros Hall. unfold tokenize_name.
  rewrite (filter_keeps_all _ _ Hall). apply join_split.
Qed.

Lemma tokenize_name_sublist s : tokenize_name s `sublist_of` split SPACE s.
Proof. apply sublist_filter. Qed.

Lemma looks_like_entity_spec toks :
  looks_like_entity toks = true ↔ ∃ t, t ∈ toks ∧ t ∈ _ENTITY_STOPWORDS.
Proof.
  unfold looks_like_entity. destruct toks as [|t0 toks].
  { split; [done|]. intros (t & Ht & _). by apply elem_of_nil in Ht. }
  rewrite bool_decide_eq_true.
  set (l := t0 :: toks). clearbody l. split.
  - intros Hlen.
    destruct (filter (λ t, t ∈ _ENTITY_STOPWORDS) l) as [|t r] eqn:Hf;
      [simpl in Hlen; lia|].
    assert (t ∈ filter (λ t, t ∈ _ENTITY_STOPWORDS) l) as Hin by (rewrite Hf; left).
    apply list_elem_of_filter in Hin as [? ?]. by exists t.
  - intros (t & Ht & Hst).
    assert (t ∈ filter (λ t, t ∈ _ENTITY_STOPWORDS) l) as Hin
      by (by apply list_elem_of_filter).
    destruct (filter _ l); [by apply elem_of_nil in Hin | simpl; lia].
Qed.

Lemma unreachable_are_stopwords :
  Forall (λ w, w ∈ _ENTITY_STOPWORDS) unreachable_stopwords.
Proof. compute_done. Qed.

(** A token of capital letters, two at least, is none of the five. *)
Lemma letters_not_unreachable t :
  2 ≤ length t → Forall (λ c, is_AZ c = true) t → t ∉ unreachable_stopwords.
Proof.
  intros Hlen Hall Hin.
  assert (Forall (λ w, ¬ (2 ≤ length w ∧ Forall (λ c, is_AZ c = true) w))
                 unreachable_stopwords) as Hno by compute_done.
  eapply Forall_forall in Hno; [|done]. by apply Hno.
Qed.

Lemma tokens_reachable s :
  nfkd_decomposes_enye →
  Forall (λ t, t ∉ unreachable_stopwords) (tokenize_name (normalize_name s)).
Proof.
  intros Hn. apply Forall_forall. intros t Ht.
  pose proof (tokenize_name_tokens (normalize_name s)) as Hlen.
  pose proof (tokenize_name_letters _ (proj1 (normalize_name_is_canonical s Hn)))
    as Hall.
  eapply Forall_forall in Hlen as [Hlen _]; [|done].
  eapply Forall_forall in Hall; [|done].
  by apply letters_not_unreachable.
Qed.

End Tokens.

Section BuilderItems.
Context `{Platform}.

Lemma index_entry_items st e :
  items (index_entry st e)
  = items st ++ (if decide (indexable e) then [item_of e] else [])
  ∧ names (index_entry st e)
  = names st ++ (if decide (indexable e) then [norm (item_of e)] else []).
Proof.
  destruct (decide (indexable e)) as [Hi|Hi]; unfold indexable in Hi;
    unfold index_entry, item_of.
  - assert (normalize_name (default [] (name e)) ≠ []) as Hn.
    { intros Hn. rewrite Hn in Hi. by apply Hi. }
    by rewrite !bool_decide_eq_false_2 by done.
  - rewrite !app_nil_r. case_bool_decide; [done|].
    rewrite bool_decide_eq_true_2; [done|]. by apply dec_stable.
Qed.

Lemma foldl_index_entry_items st es :
  items (foldl index_entry st es) = items st ++ (item_of <$> filter indexable es)
  ∧ names (foldl index_entry st es)
    = names st ++ (norm <$> (item_of <$> filter indexable es)).
Proof.
  revert st. induction es as [|e es IH]; intros st; simpl.
  { by rewrite !app_nil_r. }
  destruct (IH (index_entry st e)) as [-> ->].
  destruct (index_entry_items st e) as [-> ->].
  destruct (decide (indexable e)).
  - rewrite filter_cons_True by done. rewrite !fmap_cons, <- !app_assoc. done.
  - rewrite filter_cons_False by done. by rewrite !app_nil_r.
Qed.

(** The items of a built index are, in order, the items of the entries whose
    name has a token. *)
Lemma build_items es :
  items (build_ofac_name_index es) = item_of <$> filter indexable es
  ∧ names (build_ofac_name_index es) = norm <$> items (build_ofac_name_index es).
Proof.
  unfold build_ofac_name_index.
  destruct (foldl_index_entry_items empty_index es) as [-> ->]. done.
Qed.

Lemma index_entry_mp st e :
  mp (index_entry st e)
  = if decide (indexable e) then setdefault (norm (item_of e)) e (mp st)
    else mp st.
Proof.
  destruct (decide (indexable e)) as [Hi|Hi]; unfold indexable in Hi;
    unfold index_entry, item_of.
  - assert (normalize_name (default [] (name e)) ≠ []) as Hn.
    { intros Hn. rewrite Hn in Hi. by apply Hi. }
    by rewrite !bool_decide_eq_false_2 by done.
  - case_bool_decide; [done|].
    rewrite bool_decide_eq_true_2; [done|]. by apply dec_stable.
Qed.

Lemma foldl_index_entry_mp st es k :
  mp (foldl index_entry st es) !! k
  = match mp st !! k with
    | Some e => Some e
    | None => head (filter (λ e, norm (item_of e) = k) (filter indexable es))
    end.
Proof.
  revert st. induction es as [|e es IH]; intros st; simpl.
  { by destruct (mp st !! k). }
  rewrite IH, index_entry_mp.
  destruct (decide (indexable e)) as [Hi|Hi].
  - rewrite (filter_cons_True indexable) by done.
    rewrite setdefault_lookup.
    destruct (mp st !! k) as [e0|] eqn:Hk; [done|].
    destruct (decide (norm (item_of e) = k)) as [He|He].
    + by rewrite filter_cons_True by done.
    + by rewrite filter_cons_False by done.
  - by rewrite (filter_cons_False indexable) by done.
Qed.

(** The map sends a canonical name to the first entry that has it. *)
Lemma build_mp es k :
  mp (build_ofac_name_index es) !! k
  = head (filter (λ e, norm (item_of e) = k) (filter indexable es)).
Proof.
  unfold build_ofac_name_index. by rewrite foldl_index_entry_mp.
Qed.

End BuilderItems.

Section Rounding.

Lemma round_half_even_bounds x :
  (Qfloor x ≤ round_half_even x ≤ Qfloor x + 1)%Z.
Proof.
  unfold round_half_even.
  destruct (_ ?= _)%Q; [destruct (Z.even _)|..]; lia.
Qed.

Lemma round_half_even_mono x y :
  (x <= y)%Q → (round_half_even x ≤ round_half_even y)%Z.
Proof.
  intros Hxy. pose proof (Qfloor_resp_le x y Hxy) as Hf.
  destruct (decide (Qfloor x = Qfloor y)) as [He|Hne].
  - unfold round_half_even. rewrite <- He.
    destruct (Qcompare_spec (x - inject_Z (Qfloor x)) (1 # 2)) as [Hx|Hx|Hx],
             (Qcompare_spec (y - inject_Z (Qfloor x)) (1 # 2)) as [Hy|Hy|Hy];
      try (destruct (Z.even (Qfloor x))); try lia; exfalso; lra.
  - pose proof (round_half_even_bounds x). pose proof (round_half_even_bounds y).
    lia.
Qed.

Lemma round1_mono x y : (x <= y)%Q → (round1 x <= round1 y)%Q.
Proof.
  intros Hxy. unfold round1.
  assert (round_half_even (x * 10) ≤ round_half_even (y * 10))%Z as Hr.
  { apply round_half_even_mono. lra. }
  unfold Qle. simpl. lia.
Qed.

(** A threshold that is a number of tenths is kept by the rounding. *)
Lemma round1_tenths (k : Z) x : (k # 10 <= x)%Q → (k # 10 <= round1 x)%Q.
Proof.
  intros Hx. unfold round1.
  assert (k ≤ round_half_even (x * 10))%Z as Hr.
  { apply round_half_even_ge.
    assert (inject_Z k == (k # 10) * 10)%Q as ->; [|lra].
    unfold Qeq. simpl. lia. }
  unfold Qle. simpl. lia.
Qed.

End Rounding.

Section Ranking.
Context `{Platform}.

Lemma rank_leb_score a b : rank_leb a b = true → (b.1.2 <= a.1.2)%Q.
Proof.
  unfold rank_leb. intros [Hlt|[Heq _]%andb_true_iff]%orb_true_iff.
  - apply Qltb_lt in Hlt. by apply Qlt_le_weak.
  - apply Qeq_bool_iff in Heq. rewrite Heq. apply Qle_refl.
Qed.

Lemma Sorted_weaken {A} (R S : A → A → Prop) l :
  (∀ a b, R a b → S a b) → Sorted R l → Sorted S l.
Proof.
  intros HRS. induction 1 as [|x l Hs IH Hhd]; constructor; [done|].
  destruct Hhd; constructor; auto.
Qed.

(** No match of a ranked list scores more than the first. *)
Lemma ranked_head name idx min_score m rest :
  ranked name idx min_score = m :: rest →
  ∀ m', m' ∈ ranked name idx min_score → (m'.1.2 <= m.1.2)%Q.
Proof.
  intros Hr m' Hin.
  pose proof (ranked_sorted name idx min_score) as Hs.
  assert (Sorted (λ a b : Match, (b.1.2 <= a.1.2)%Q) (ranked name idx min_score))
    as Hs'.
  { eapply Sorted_weaken; [|done]. intros a b. apply rank_leb_score. }
  apply Sorted_StronglySorted in Hs'.
  2: { intros a b c Hab Hbc. by eapply Qle_trans. }
  rewrite Hr in Hs', Hin. apply StronglySorted_inv in Hs' as [_ Hall].
  apply elem_of_cons in Hin as [->|Hin]; [apply Qle_refl|].
  eapply Forall_forall in Hall; done.
Qed.


Lemma cap_pos top_k : 1 ≤ cap top_k.
Proof. unfold cap. lia. Qed.

(** The two lookups fail together. *)
Lemma lookup_cases name idx :
  too_short name
  ∨ (¬ too_short name
     ∧ ids_in_range idx (_candidate_ids_for_query (query_tokens name) idx 5000))
  ∨ (¬ too_short name
     ∧ ¬ ids_in_range idx (_candidate_ids_for_query (query_tokens name) idx 5000)).
Proof.
  destruct (decide (too_short name)); [by left|].
  destruct (decide (ids_in_range idx
    (_candidate_ids_for_query (query_tokens name) idx 5000))); [right; by left|].
  right. by right.
Qed.

Lemma fuzzy_top_matches_inv name idx top_k min_score l :
  fuzzy_top_matches name idx top_k min_score = Ok l →
  l = take (cap top_k) (ranked name idx min_score)
  ∧ (too_short name ∨
     ids_in_range idx (_candidate_ids_for_query (query_tokens name) idx 5000)).
Proof.
  intros Hres.
  destruct (lookup_cases name idx) as [Hs|[[Hs Hr]|[Hs Hr]]].
  - rewrite fuzzy_top_matches_too_short in Hres by done. injection Hres as <-.
    split; [|by left]. unfold ranked.
    rewrite too_short_no_survivors by done. by destruct (cap top_k).
  - rewrite fuzzy_top_matches_ok in Hres by done. injection Hres as <-.
    split; [done | by right].
  - by rewrite fuzzy_top_matches_error in Hres.
Qed.

(** What [fuzzy_match] returns when the exact lookup misses. *)
Lemma fuzzy_match_inv name idx min_score r :
  fuzzy_match name idx min_score = Ok r →
  mp idx !! query name = None →
  r = select min_score (best_of name idx)
  ∧ (too_short name ∨
     ids_in_range idx (_candidate_ids_for_query (query_tokens name) idx 5000)).
Proof.
  intros Hres Hmp.
  destruct (lookup_cases name idx) as [Hs|[[Hs Hr]|[Hs Hr]]].
  - split; [|by left].
    unfold best_of. rewrite too_short_no_survivors by done. simpl.
    destruct Hs as [Hq|Hlen].
    + rewrite fuzzy_match_empty in Hres by done. by injection Hres as <-.
    + rewrite fuzzy_match_short in Hres by done. by injection Hres as <-.
  - assert (query name ≠ [] ∧ ¬ length (query_tokens name) < 2) as [Hq Hlen].
    { split; intros ?; apply Hs; [by left | by right]. }
    rewrite fuzzy_match_select in Hres by done. injection Hres as <-.
    split; [done | by right].
  - assert (query name ≠ [] ∧ ¬ length (query_tokens name) < 2) as [Hq Hlen].
    { split; intros ?; apply Hs; [by left | by right]. }
    by rewrite fuzzy_match_error in Hres.
Qed.

(** A match [select] lets through comes from a survivor that scores at least
    the threshold and at least as much as any other. *)
Lemma select_Some name idx min_score m :
  select min_score (best_of name idx) = Some m →
  ∃ it, it ∈ survivors name idx ∧ m = match_of name it
        ∧ (min_score <= item_score name it)%Q
        ∧ ∀ it', it' ∈ survivors name idx →
                 (item_score name it' <= item_score name it)%Q.
Proof.
  unfold select, best_of.
  destruct (foldl (pick name) None (survivors name idx)) as [[[s n] e]|] eqn:Hb;
    [|done].
  destruct (Qleb min_score s) eqn:Hms; [|done]. intros [= <-].
  apply Qleb_le in Hms.
  destruct (foldl_pick_Some _ _ _ _ _ _ Hb)
    as ([Hnone|(it & Hit & Hs & Hn & He)] & Hmax & _); [discriminate Hnone|].
  subst s n e. exists it. done.
Qed.

Lemma select_None name idx min_score :
  select min_score (best_of name idx) = None →
  ∀ it, it ∈ survivors name idx → (item_score name it < min_score)%Q.
Proof.
  unfold select, best_of.
  destruct (foldl (pick name) None (survivors name idx)) as [[[s n] e]|] eqn:Hb.
  - destruct (Qleb min_score s) eqn:Hms; [done|]. intros _ it Hit.
    destruct (foldl_pick_Some _ _ _ _ _ _ Hb) as (_ & Hmax & _).
    apply not_true_iff_false in Hms. rewrite Qleb_le in Hms.
    apply Qnot_le_lt in Hms. eapply Qle_lt_trans; [by apply Hmax | done].
  - apply foldl_pick_None in Hb as [_ Hnil]. intros _ it Hit.
    rewrite Hnil in Hit. by apply elem_of_nil in Hit.
Qed.

End Ranking.

Section DedupeShape.
Context `{Platform}.

(** What the loop keeps is taken from its input, in order, and loses no key
    as long as the cap is not reached. *)
Lemma dedupe_loop_keeps top_k l seen out :
  ∃ kept,
    dedupe_loop top_k l seen out = out ++ kept
    ∧ kept `sublist_of` l
    ∧ ((Z.of_nat (length (out ++ kept)) < Z.max 1 top_k)%Z →
       ∀ m, m ∈ l →
            core_person_key m.1.1 ∈ seen ∨ core_person_key m.1.1 ∈ core_keys kept).
Proof.
  revert seen out. induction l as [|[[nm sc] e] l IH]; intros seen out.
  { exists []. rewrite app_nil_r. split; [done|]. split; [done|].
    intros _ m Hm. by apply elem_of_nil in Hm. }
  cbn [dedupe_loop]. case_bool_decide as Hseen.
  - destruct (IH seen out) as (kept & -> & Hsub & Hcov).
    exists kept. split; [done|]. split; [by constructor|].
    intros Hlen m Hm. apply elem_of_cons in Hm as [->|Hm]; [by left|]. by apply Hcov.
  - case_bool_decide as Hfull.
    + exists [(nm, sc, e)]. split; [done|]. split.
      { constructor. apply sublist_nil_l. }
      intros Hlen. lia.
    + destruct (IH (seen ∪ {[core_person_key nm]}) (out ++ [(nm, sc, e)]))
        as (kept & -> & Hsub & Hcov).
      exists ((nm, sc, e) :: kept). rewrite <- app_assoc. split; [done|].
      split; [by constructor|].
      intros Hlen m Hm. unfold core_keys. rewrite fmap_cons.
      apply elem_of_cons in Hm as [->|Hm]; [right; left|].
      rewrite <- app_assoc in Hcov.
      destruct (Hcov Hlen m Hm) as [Hin|Hin].
      * apply elem_of_union in Hin as [?|Hin]; [by left|].
        apply elem_of_singleton in Hin. right. rewrite Hin. left.
      * right. by right.
Qed.

Lemma dedupe_by_core_shape matches top_k :
  dedupe_by_core matches top_k `sublist_of` matches
  ∧ NoDup (core_keys (dedupe_by_core matches top_k))
  ∧ (Z.of_nat (length (dedupe_by_core matches top_k)) ≤ Z.max 1 top_k)%Z
  ∧ ((Z.of_nat (length (dedupe_by_core matches top_k)) < Z.max 1 top_k)%Z →
     ∀ m, m ∈ matches →
          core_person_key m.1.1 ∈ core_keys (dedupe_by_core matches top_k)).
Proof.
  unfold dedupe_by_core.
  destruct (dedupe_loop_keeps top_k matches ∅ []) as (kept & Hk & Hsub & Hcov).
  destruct (dedupe_loop_shape top_k matches ∅ []) as (kept' & Hk' & Hnd & _ & Hlen).
  rewrite Hk in Hk'. simpl in Hk'. subst kept'. rewrite Hk. simpl in *.
  split; [done|]. split; [done|]. split; [lia|].
  intros Hlt m Hm. destruct (Hcov Hlt m Hm) as [Hin|Hin]; [|done].
  by apply elem_of_empty in Hin.
Qed.

Lemma dedupe_by_core_head matches top_k :
  head (dedupe_by_core matches top_k) = head matches.
Proof.
  unfold dedupe_by_core. destruct matches as [|[[nm sc] e] l]; [done|].
  cbn [dedupe_loop]. rewrite bool_decide_eq_false_2 by set_solver.
  case_bool_decide; [done|].
  destruct (dedupe_loop_keeps top_k l (∅ ∪ {[core_person_key nm]}) [(nm, sc, e)])
    as (kept & Hk & _).
  simpl in *. by rewrite Hk.
Qed.

End DedupeShape.

Section SearchService.
Context `{Platform}.

Lemma api_search_ofac_blank idx q limit :
  Forall (λ c, is_space c = true) q → api_search_ofac idx q limit = Ok [].
Proof. intros Hq. unfold api_search_ofac. by rewrite strip_blank. Qed.

Lemma api_search_ofac_unloaded idx q limit :
  names idx = [] → api_search_ofac idx q limit = Ok [].
Proof.
  intros Hn. unfold api_search_ofac. rewrite Hn.
  case_bool_decide; [done|]. done.
Qed.

(** The answer, when there is one, is the projection of the deduplicated
    ranking. *)
Lemma api_search_ofac_inv idx q limit hits :
  api_search_ofac idx q limit = Ok hits →
  hits = [] ∨
  ∃ l, fuzzy_top_matches (strip q) idx (Z.max 1 (Z.min limit 50) * 3) 80 = Ok l
       ∧ hits = (λ m : Match,
                   {| ofac_name := m.1.1; score := m.1.2;
                      hit_uid := uid m.2; hit_type := type m.2 |})
                <$> dedupe_by_core l (Z.max 1 (Z.min limit 50)).
Proof.
  unfold api_search_ofac. case_bool_decide; [intros [= <-]; by left|].
  case_bool_decide; [intros [= <-]; by left|].
  destruct (fuzzy_top_matches _ _ _ _) as [l|]; simpl; [|done].
  intros [= <-]. right. by exists l.
Qed.

End SearchService.

(** * Further properties of the engine *)

Section EngineFacts.
Context `{Platform}.

(** X1: the normalizer is idempotent, and what it returns is a canonical
    name: capital letters in words separated by one space, no space at
    either end. *)
Theorem normalize_name_idempotent (s : str) :
  nfkd_decomposes_enye → ascii_stable →
  normalize_name (normalize_name s) = normalize_name s
  ∧ canonical (normalize_name s).
Proof.
  intros Hn Hst. pose proof (normalize_name_is_canonical s Hn) as Hc.
  split; [by apply normalize_name_fixes_canonical | done].
Qed.

(** X2: every token has at least two characters and no space; the tokens
    are words of the string, in order; and when every word of the string has
    two characters or more, joining the tokens with a space gives the string
    back. *)
Theorem tokenize_name_words (s : str) :
  Forall (λ t, 2 ≤ length t ∧ Forall (λ c, c ≠ SPACE) t) (tokenize_name s)
  ∧ tokenize_name s `sublist_of` split SPACE s
  ∧ (Forall (λ w, 2 ≤ length w) (split SPACE s) →
     join [SPACE] (tokenize_name s) = s).
Proof.
  split; [apply tokenize_name_tokens|].
  split; [apply tokenize_name_sublist | apply tokenize_name_join].
Qed.

(** X3: five of the stop words (S, A, S.A, S.A. and "S A") can never be a
    token of a normalized name, so a normalized name is taken for an entity
    exactly when one of its tokens is one of the other stop words. *)
Theorem entity_stopwords_reachable (s : str) :
  nfkd_decomposes_enye →
  Forall (λ w, w ∈ _ENTITY_STOPWORDS) unreachable_stopwords
  ∧ Forall (λ t, t ∉ unreachable_stopwords) (tokenize_name (normalize_name s))
  ∧ (looks_like_entity (tokenize_name (normalize_name s)) = true ↔
     ∃ t, t ∈ tokenize_name (normalize_name s)
          ∧ t ∈ _ENTITY_STOPWORDS ∧ t ∉ unreachable_stopwords).
Proof.
  intros Hn. pose proof (tokens_reachable s Hn) as Hr.
  split; [apply unreachable_are_stopwords|]. split; [done|].
  rewrite looks_like_entity_spec. split.
  - intros (t & Ht & Hst). exists t. split; [done|]. split; [done|].
    eapply Forall_forall in Hr; done.
  - intros (t & Ht & Hst & _). by exists t.
Qed.

(** X4: the items of a built index are, in the order of the entries, the
    items of the entries whose name has at least one token; the list of names
    runs parallel to the items; entries without such a name leave no trace. *)
Theorem build_index_items (es : list Entry) :
  items (build_ofac_name_index es) = item_of <$> filter indexable es
  ∧ names (build_ofac_name_index es) = norm <$> items (build_ofac_name_index es)
  ∧ length (items (build_ofac_name_index es)) ≤ length es
  ∧ Forall (λ it, norm it ≠ [] ∧ tokens it ≠ []) (items (build_ofac_name_index es)).
Proof.
  destruct (build_items es) as [Hi Hn]. split; [done|]. split; [done|]. split.
  - rewrite Hi, length_fmap. apply length_filter_le.
  - rewrite Hi. apply Forall_fmap, Forall_forall. intros e He.
    apply list_elem_of_filter in He as [Hidx _]. unfold indexable in Hidx.
    simpl. split; [|done]. intros Hnil. rewrite Hnil in Hidx. by apply Hidx.
Qed.

(** X5: the map of a built index sends a canonical name to the first entry
    of the list that has it: a later entry with the same canonical name never
    replaces it. *)
Theorem map_first_occurrence (es : list Entry) (k : str) :
  mp (build_ofac_name_index es) !! k
  = head (filter (λ e, normalize_name (default [] (name e)) = k)
                 (filter indexable es)).
Proof. apply build_mp. Qed.

(** X6: in a built index the posting set of a token holds exactly the
    positions of the items that have the token, provided it has three
    characters or more; no posting set is empty and none holds a position
    outside the items. *)
Theorem postings_exact (es : list Entry) :
  iter_tokens_faithful →
  (∀ t i, i ∈ posting (build_ofac_name_index es) t ↔
          3 ≤ length t
          ∧ ∃ it, items (build_ofac_name_index es) !! i = Some it ∧ t ∈ tokens it)
  ∧ (∀ t ids, token_to_ids (build_ofac_name_index es) !! t = Some ids →
              ids ≠ ∅
              ∧ ∀ i, i ∈ ids → i < length (items (build_ofac_name_index es))).
Proof.
  intros Hiter.
  pose proof (build_ofac_name_index_inv Hiter es) as [_ Hpost Hkeys _ _].
  split; [done|]. intros t ids Ht. split.
  - assert (t ∈ dom (token_to_ids (build_ofac_name_index es))) as Hd
      by (apply elem_of_dom; by eexists).
    apply Hkeys in Hd as (Hlen & it & Hit & Htok).
    apply list_elem_of_lookup in Hit as [i Hi].
    assert (i ∈ posting (build_ofac_name_index es) t) as Hin.
    { apply Hpost. split; [done|]. by exists it. }
    unfold posting in Hin. rewrite Ht in Hin. simpl in Hin. set_solver.
  - intros i Hi.
    assert (i ∈ posting (build_ofac_name_index es) t) as Hin.
    { unfold posting. by rewrite Ht. }
    apply Hpost in Hin as (_ & it & Hit & _). by eapply lookup_lt_Some.
Qed.

(** X8: the candidate ids of a query come from the posting sets of its
    tokens of three characters or more, and every id that all of those
    posting sets hold is a candidate: narrowing by intersection, or widening
    by union, never loses an item that has all the long tokens of the
    query. *)
Theorem candidate_ids_bounds (q_tokens : list str) (idx : Index) (max_pool : Z) :
  iter_tokens_faithful → iter_ids_faithful →
  (∀ i, i ∈ _candidate_ids_for_query q_tokens idx max_pool →
        ∃ t, t ∈ q_tokens ∧ 3 ≤ length t ∧ i ∈ posting idx t)
  ∧ (∀ i, (∃ t, t ∈ q_tokens ∧ 3 ≤ length t) →
          (∀ t, t ∈ q_tokens → 3 ≤ length t → i ∈ posting idx t) →
          i ∈ _candidate_ids_for_query q_tokens idx max_pool).
Proof.
  intros Htok Hids. split.
  - intros i. by apply candidate_ids_upper.
  - intros i. by apply candidate_ids_lower.
Qed.

End EngineFacts.

Section LookupLemmas.
Context `{Platform}.

Lemma fuzzy_match_total name idx min_score :
  ids_in_range idx (_candidate_ids_for_query (query_tokens name) idx 5000) →
  ∃ r, fuzzy_match name idx min_score = Ok r.
Proof.
  intros Hr.
  destruct (decide (query name = [])) as [Hq|Hq].
  { eexists. by apply fuzzy_match_empty. }
  destruct (mp idx !! query name) as [e|] eqn:Hmp.
  { eexists. by apply fuzzy_match_exact. }
  destruct (decide (length (query_tokens name) < 2)) as [Hlen|Hlen].
  { eexists. by apply fuzzy_match_short. }
  eexists. by apply fuzzy_match_select.
Qed.

Lemma fuzzy_top_matches_total name idx top_k min_score :
  ids_in_range idx (_candidate_ids_for_query (query_tokens name) idx 5000) →
  ∃ l, fuzzy_top_matches name idx top_k min_score = Ok l.
Proof.
  intros Hr. destruct (decide (too_short name)) as [Hs|Hs].
  - eexists. by apply fuzzy_top_matches_too_short.
  - eexists. by apply fuzzy_top_matches_ok.
Qed.

(** Without a token of three characters there is no posting to start
    from. *)
Lemma no_long_token_no_candidates q_tokens idx max_pool :
  iter_tokens_faithful →
  Forall (λ t, length t < 3) q_tokens →
  _candidate_ids_for_query q_tokens idx max_pool = [].
Proof.
  intros Hiter Hall. unfold _candidate_ids_for_query.
  destruct (query_postings (token_to_ids idx) q_tokens) as [|p ps] eqn:Hq; [done|].
  assert (p ∈ query_postings (token_to_ids idx) q_tokens) as Hin
    by (rewrite Hq; left).
  apply (query_postings_elem _ _ _ Hiter) in Hin as (t & Ht & Hlen & _).
  eapply Forall_forall in Hall; [|done]. lia.
Qed.

Lemma no_candidates_no_survivors name idx :
  _candidate_ids_for_query (query_tokens name) idx 5000 = [] →
  survivors name idx = [].
Proof. intros Hc. unfold survivors, candidates. by rewrite Hc. Qed.

Lemma no_survivors_top name idx top_k min_score :
  _candidate_ids_for_query (query_tokens name) idx 5000 = [] →
  fuzzy_top_matches name idx top_k min_score = Ok [].
Proof.
  intros Hc. destruct (decide (too_short name)) as [Hs|Hs].
  { by apply fuzzy_top_matches_too_short. }
  rewrite fuzzy_top_matches_ok; [|done|rewrite Hc; constructor].
  unfold ranked. rewrite no_candidates_no_survivors by done.
  by destruct (cap top_k).
Qed.

Lemma no_survivors_best name idx min_score :
  _candidate_ids_for_query (query_tokens name) idx 5000 = [] →
  mp idx !! query name = None →
  fuzzy_match name idx min_score = Ok None.
Proof.
  intros Hc Hmp.
  destruct (decide (query name = [])) as [Hq|Hq].
  { by apply fuzzy_match_empty. }
  destruct (decide (length (query_tokens name) < 2)) as [Hlen|Hlen].
  { by apply fuzzy_match_short. }
  rewrite fuzzy_match_select; [|done..|rewrite Hc; constructor].
  unfold best_of. by rewrite no_candidates_no_survivors.
Qed.

End LookupLemmas.

Section LookupFacts.
Context `{Platform}.

(** X9: on a built index neither lookup ever reads past the end of the
    items: both return, whatever the query, the threshold and the count. *)
Theorem lookups_never_fail_on_built_index (es : list Entry) (name : str)
    (top_k : Z) (min_score : Q) :
  iter_tokens_faithful → iter_ids_faithful →
  (∃ r, fuzzy_match name (build_ofac_name_index es) min_score = Ok r)
  ∧ (∃ l, fuzzy_top_matches name (build_ofac_name_index es) top_k min_score
          = Ok l).
Proof.
  intros Htok Hids.
  pose proof (built_ids_in_range es (query_tokens name) 5000 Htok Hids) as Hr.
  split; [by apply fuzzy_match_total | by apply fuzzy_top_matches_total].
Qed.

(** X10: a query whose tokens all have fewer than three characters retrieves
    no candidate: the ranked lookup returns the empty sequence and the best
    lookup returns nothing unless the query is a canonical name of the
    index, whatever the index holds. *)
Theorem short_tokens_never_match (idx : Index) (name : str) (top_k : Z)
    (min_score : Q) :
  iter_tokens_faithful →
  Forall (λ t, length t < 3) (tokenize_name (normalize_name name)) →
  fuzzy_top_matches name idx top_k min_score = Ok []
  ∧ (mp idx !! normalize_name name = None →
     fuzzy_match name idx min_score = Ok None).
Proof.
  intros Hiter Hall.
  pose proof (no_long_token_no_candidates _ idx 5000 Hiter Hall) as Hc.
  split; [by apply no_survivors_top|]. intros Hmp. by apply no_survivors_best.
Qed.



(** X16: when the best lookup finds a match by scoring, the ranked lookup
    with the same threshold returns a non-empty sequence, and the score at
    its head is the score of that match. *)
Theorem best_is_head_of_ranking (idx : Index) (name : str) (top_k : Z)
    (min_score : Q) (m : Match) :
  fuzzy_match name idx min_score = Ok (Some m) →
  mp idx !! normalize_name name = None →
  ∃ m' rest,
    fuzzy_top_matches name idx top_k min_score = Ok (m' :: rest)
    ∧ (m'.1.2 == m.1.2)%Q.
Proof.
  intros Hres Hmp. apply fuzzy_match_inv in Hres as [Hsel Hcase]; [|done].
  symmetry in Hsel. apply select_Some in Hsel as (it & Hit & -> & Hms & Hmax).
  assert (match_of name it ∈ ranked name idx min_score) as Hin.
  { apply ranked_elem. by exists it. }
  destruct (ranked name idx min_score) as [|m' rest] eqn:Hr.
  { by apply elem_of_nil in Hin. }
  assert (¬ too_short name) as Hs.
  { intros Hs. rewrite too_short_no_survivors in Hit by done.
    by apply elem_of_nil in Hit. }
  destruct Hcase as [?|Hrange]; [done|].
  exists m', (take (cap top_k - 1) rest). split.
  - rewrite fuzzy_top_matches_ok by done. rewrite Hr.
    pose proof (cap_pos top_k). destruct (cap top_k) as [|n]; [lia|].
    simpl. by rewrite Nat.sub_0_r.
  - apply Qle_antisym.
    + assert (m' ∈ ranked name idx min_score) as Hm' by (rewrite Hr; left).
      apply ranked_elem in Hm' as (it' & Hit' & _ & ->). simpl.
      by apply round1_mono, Hmax.
    + rewrite <- Hr in Hin. by apply (ranked_head _ _ _ _ _ Hr) in Hin.
Qed.


(** X18: for every entry the builder keeps, a query that normalizes to the
    canonical name of the entry gets from the best lookup the score 100,
    whatever the threshold, and the first entry of the list with that
    canonical name. *)
Theorem exact_match_determinism (es : list Entry) (e : Entry) (q : str)
    (min_score : Q) :
  e ∈ es → indexable e →
  normalize_name q = normalize_name (default [] (name e)) →
  ∃ e', head (filter (λ x, normalize_name (default [] (name x))
                           = normalize_name q)
                     (filter indexable es)) = Some e'
        ∧ fuzzy_match q (build_ofac_name_index es) min_score
          = Ok (Some (normalize_name q, 100%Q, e')).
Proof.
  intros He Hidx Hname.
  pose proof (build_mp es (normalize_name q)) as Hmp.
  destruct (head _) as [e'|] eqn:Hhd.
  - exists e'. split; [done|]. apply fuzzy_match_exact; [|done].
    unfold query. rewrite Hname. intros Hnil. unfold indexable in Hidx.
    rewrite Hnil in Hidx. by apply Hidx.
  - apply head_None in Hhd.
    assert (e ∈ filter (λ x, norm (item_of x) = normalize_name q)
                       (filter indexable es)) as Hin.
    { apply list_elem_of_filter. split; [by simpl|]. by apply list_elem_of_filter. }
    rewrite Hhd in Hin. by apply elem_of_nil in Hin.
Qed.

End LookupFacts.

Section Blocking.
Context `{Platform}.

Lemma brute_force_scan_elem name idx min_score m :
  m ∈ brute_force_scan name idx min_score ↔
  ∃ it, it ∈ items idx ∧ passes_gate name it
        ∧ (min_score <= item_score name it)%Q ∧ m = match_of name it.
Proof.
  unfold brute_force_scan. rewrite list_elem_of_omap.
  fold (query name) (query_tokens name) (query_set name).
  split.
  - intros (it & Hit & Hf). exists it. split; [done|].
    destruct (gate_rejects _ _) eqn:Hg; [done|].
    apply gate_rejects_spec in Hg.
    fold (item_score name it) in Hf.
    destruct (Qleb min_score (item_score name it)) eqn:Hms; [|done].
    apply Qleb_le in Hms. by injection Hf as <-.
  - intros (it & Hit & Hg & Hms & ->). exists it. split; [done|].
    apply (gate_rejects_spec (query_set name)) in Hg. rewrite Hg.
    fold (item_score name it).
    apply Qleb_le in Hms. by rewrite Hms.
Qed.

(** An item that has every long token of the query is retrieved. *)
Lemma holder_is_candidate es name i it :
  iter_tokens_faithful → iter_ids_faithful →
  items (build_ofac_name_index es) !! i = Some it →
  (∃ t, t ∈ query_tokens name ∧ 3 ≤ length t) →
  (∀ t, t ∈ query_tokens name → 3 ≤ length t → t ∈ tokens it) →
  it ∈ candidates name (build_ofac_name_index es).
Proof.
  intros Htok Hids Hit Hlong Hall.
  pose proof (build_ofac_name_index_inv Htok es) as Hinv.
  unfold candidates. apply list_elem_of_omap. exists i. split; [|done].
  apply candidate_ids_lower; [done..|].
  intros t Ht Hlen. apply (inv_postings _ Hinv). split; [done|].
  exists it. split; [done|]. by apply Hall.
Qed.

End Blocking.

Section BlockingFacts.
Context `{Platform}.

(** X19: over a built index, every match of the ranking is a match of the
    brute-force scan of all items; and the ranking misses no item of the
    scan that has all the tokens of three characters or more of the query,
    provided the query has such a token: blocking can only lose an item that
    lacks one of the long tokens of the query. *)
Theorem blocking_against_brute_force (es : list Entry) (name : str)
    (min_score : Q) :
  iter_tokens_faithful → iter_ids_faithful →
  (∀ m, m ∈ ranked name (build_ofac_name_index es) min_score →
        m ∈ brute_force_scan name (build_ofac_name_index es) min_score)
  ∧ (∀ it, it ∈ items (build_ofac_name_index es) →
           passes_gate name it → (min_score <= item_score name it)%Q →
           (∃ t, t ∈ query_tokens name ∧ 3 ≤ length t) →
           (∀ t, t ∈ query_tokens name → 3 ≤ length t → t ∈ tokens it) →
           match_of name it ∈ ranked name (build_ofac_name_index es) min_score).
Proof.
  intros Htok Hids. split.
  - intros m (it & Hit & Hms & ->)%ranked_elem.
    apply survivors_items in Hit as [Hit Hg].
    apply brute_force_scan_elem. by exists it.
  - intros it Hit Hg Hms Hlong Hall.
    apply list_elem_of_lookup in Hit as [i Hi].
    apply ranked_elem. exists it. split; [|done].
    unfold survivors. apply list_elem_of_filter. split; [done|].
    by eapply holder_is_candidate.
Qed.

End BlockingFacts.

Section DedupeFacts.
Context `{Platform}.

(** X20: the deduplicator returns matches of its input in their order,
    with pairwise different core keys, never more than [max(1, top_k)] of
    them; its first match is the first match of the input; and as long as
    the cap is not reached every core key of the input is the key of a match
    it returns. *)
Theorem dedupe_by_core_keeps_first_of_each_key (matches : list Match)
    (top_k : Z) :
  dedupe_by_core matches top_k `sublist_of` matches
  ∧ NoDup (core_keys (dedupe_by_core matches top_k))
  ∧ (Z.of_nat (length (dedupe_by_core matches top_k)) ≤ Z.max 1 top_k)%Z
  ∧ head (dedupe_by_core matches top_k) = head matches
  ∧ ((Z.of_nat (length (dedupe_by_core matches top_k)) < Z.max 1 top_k)%Z →
     ∀ m, m ∈ matches →
          core_person_key m.1.1 ∈ core_keys (dedupe_by_core matches top_k)).
Proof.
  destruct (dedupe_by_core_shape matches top_k) as (Hsub & Hnd & Hlen & Hcov).
  split; [done|]. split; [done|]. split; [done|].
  split; [apply dedupe_by_core_head | done].
Qed.

End DedupeFacts.

(** * Properties of the code around the engine *)

Section ServiceFacts.
Context `{Platform}.

(** X21: whatever [limit] is asked for, the search service answers with at
    most [max(1, min(limit, 50))] hits, so never more than 50; the hits have
    pairwise different core keys, each scores 80 or more, and each carries
    the canonical name, uid and type of an item of the index. *)
Theorem api_search_ofac_answer (idx : Index) (q : str) (limit : Z)
    (hits : list Hit) :
  api_search_ofac idx q limit = Ok hits →
  (Z.of_nat (length hits) ≤ Z.max 1 (Z.min limit 50))%Z
  ∧ length hits ≤ 50
  ∧ NoDup ((λ h, core_person_key (ofac_name h)) <$> hits)
  ∧ Forall (λ h, (80 <= score h)%Q
                 ∧ ∃ it, it ∈ items idx ∧ ofac_name h = norm it
                         ∧ hit_uid h = uid (entry it)
                         ∧ hit_type h = type (entry it)) hits.
Proof.
  intros [->|(l & Hl & ->)]%api_search_ofac_inv.
  { simpl. split; [lia|]. split; [lia|]. split; constructor. }
  set (lim := Z.max 1 (Z.min limit 50)) in *.
  destruct (dedupe_by_core_shape l lim) as (Hsub & Hnd & Hlen & _).
  rewrite length_fmap.
  split; [lia|]. split; [lia|]. split.
  - rewrite <- list_fmap_compose. exact Hnd.
  - apply Forall_fmap, Forall_forall. intros m Hm. simpl.
    eapply elem_of_sublist in Hm; [|done].
    apply fuzzy_top_matches_inv in Hl as [-> _].
    apply elem_of_take_inv, ranked_elem in Hm as (it & Hit & Hms & ->).
    apply survivors_items in Hit as [Hit _]. simpl. split.
    + by apply (round1_ge _ 80).
    + by exists it.
Qed.

(** X22: a query of white space only, and an index that holds no name, get
    the empty answer; and over a built index the service always answers: it
    never fails on a lookup. *)
Theorem api_search_ofac_always_answers (es : list Entry) (q : str) (limit : Z) :
  iter_tokens_faithful → iter_ids_faithful →
  (∃ hits, api_search_ofac (build_ofac_name_index es) q limit = Ok hits)
  ∧ (Forall (λ c, is_space c = true) q →
     api_search_ofac (build_ofac_name_index es) q limit = Ok [])
  ∧ (Forall (λ e, ¬ indexable e) es →
     api_search_ofac (build_ofac_name_index es) q limit = Ok []).
Proof.
  intros Htok Hids. split; [|split].
  - unfold api_search_ofac.
    case_bool_decide; [by eexists|]. case_bool_decide; [by eexists|].
    destruct (fuzzy_top_matches_total (strip q) (build_ofac_name_index es)
                (Z.max 1 (Z.min limit 50) * 3) 80) as [l ->].
    { by apply built_ids_in_range. }
    simpl. by eexists.
  - apply api_search_ofac_blank.
  - intros Hno. apply api_search_ofac_unloaded.
    destruct (build_items es) as [Hi ->]. rewrite Hi.
    assert (filter indexable es = []) as ->; [|done].
    clear Hi. induction Hno as [|e es He _ IH]; [done|].
    rewrite filter_cons_False by done. exact IH.
Qed.

End ServiceFacts.

Section HelperFacts.

(** X23: [normalize_text] returns words separated by one plain space, with
    no white space at either end and no other white space character, and
    applying it twice changes nothing more. *)
Theorem normalize_text_tidy (s : str) :
  tidy (normalize_text s)
  ∧ normalize_text (normalize_text s) = normalize_text s
  ∧ (Forall (λ c, is_space c = true) s → normalize_text s = []).
Proof.
  pose proof (normalize_text_is_tidy s) as Ht.
  split; [done|]. split; [by apply normalize_text_fixes_tidy|].
  apply normalize_text_blank.
Qed.

(** X24: [_strip_ns] returns the part of the tag after its last closing
    brace: an end of the tag that holds no brace; a tag without a brace is
    returned as it is, a qualified tag gives its local name, and stripping
    twice is stripping once. *)
Theorem strip_ns_local_name (tag : str) :
  Forall (λ c, c ≠ RBRACE) (_strip_ns tag)
  ∧ (∃ pre, tag = pre ++ _strip_ns tag)
  ∧ _strip_ns (_strip_ns tag) = _strip_ns tag
  ∧ (Forall (λ c, c ≠ RBRACE) tag → _strip_ns tag = tag)
  ∧ (∀ ns, Forall (λ c, c ≠ RBRACE) tag →
           _strip_ns (ns ++ [RBRACE] ++ tag) = tag).
Proof.
  pose proof (_strip_ns_no_brace tag) as Hno.
  split; [done|]. split; [apply _strip_ns_suffix|].
  split; [by apply _strip_ns_unqualified|].
  split; [apply _strip_ns_unqualified|].
  intros ns Htag. by apply _strip_ns_qualified.
Qed.

(** X25: every entry [parse_sdn_xml] returns has a name that is not empty
    and has no white space at either end; there are no more entries than
    [sdnEntry] elements in the tree; and the entries of the fallback pass,
    which runs only when the first pass found nothing, have neither type nor
    remarks. *)
Theorem parse_sdn_xml_entries (root : Element) :
  Forall (λ e, ∃ n, name e = Some n ∧ n ≠ [] ∧ strip n = n) (parse_sdn_xml root)
  ∧ length (parse_sdn_xml root) ≤ length (filter is_sdnEntry (iter root))
  ∧ (first_pass root = [] →
     Forall (λ e, type e = None ∧ remarks e = None) (parse_sdn_xml root))
  ∧ (first_pass root ≠ [] →
     parse_sdn_xml root
     = filter (λ e, truthy (name e) = true)
              (entry_data <$> filter is_sdnEntry (iter root))).
Proof.
  split; [apply parse_sdn_xml_named|]. split; [apply parse_sdn_xml_length|].
  unfold parse_sdn_xml. split.
  - intros ->. rewrite bool_decide_eq_true_2 by done.
    rewrite fallback_pass_spec. apply Forall_forall. intros e Hin.
    apply list_elem_of_filter in Hin as [_ Hin].
    by apply list_elem_of_fmap in Hin as (el & -> & _).
  - intros Hne. rewrite bool_decide_eq_false_2 by done. apply first_pass_spec.
Qed.


End HelperFacts.

Section PersonsTheorem.
Context (str_lower : str → str) (ents : str → list (str * str)).

(** X27: the persons [extract_persons] returns are taken, in order, from
    the stripped texts of the entities labelled PERSON; each has three
    characters or more; no two of them are equal up to case; and every
    such text of three characters or more is returned up to case. *)
Theorem extract_persons_distinct (txt : str) :
  let persons :=
    (λ ent : str * str, strip ent.1) <$>
      filter (λ ent : str * str, ent.2 = lit "PERSON") (ents txt) in
  let out := extract_persons str_lower ents txt in
  out `sublist_of` persons
  ∧ NoDup (str_lower <$> out)
  ∧ Forall (λ p, 3 ≤ length p) out
  ∧ Forall (λ p, 3 ≤ length p → str_lower p ∈ str_lower <$> out) persons.
Proof.
  intros persons out. unfold out, extract_persons. fold persons.
  destruct (persons_loop_shape str_lower persons ∅ [])
    as (kept & -> & Hsub & Hnd & Hall & Hcov).
  simpl. split; [done|]. split; [done|]. split.
  - eapply Forall_impl; [done|]. by intros p [? _].
  - eapply Forall_impl; [done|]. cbv beta. intros p Hp Hlen.
    destruct (Hp Hlen) as [Hin|Hin]; [|done]. by apply elem_of_empty in Hin.
Qed.

End PersonsTheorem.

Section MentionsLemmas.
Context `{Platform}.
Context (str_lower : str → str) (ents : str → list (str * str)).

(** A match of the best lookup never scores less than a threshold that is a
    number of tenths, 100 at most. *)
Lemma fuzzy_match_floor name idx min_score k m :
  (min_score == k # 10)%Q → (min_score <= 100)%Q →
  fuzzy_match name idx min_score = Ok (Some m) → (min_score <= m.1.2)%Q.
Proof.
  intros Hk H100 Hres.
  destruct (mp idx !! query name) as [e|] eqn:Hmp.
  - destruct (decide (query name = [])) as [Hq|Hq].
    { by rewrite fuzzy_match_empty in Hres. }
    rewrite (fuzzy_match_exact _ _ _ e) in Hres by done.
    by injection Hres as <-.
  - apply fuzzy_match_inv in Hres as [Hsel _]; [|done].
    symmetry in Hsel. apply select_Some in Hsel as (it & _ & -> & Hms & _).
    simpl. rewrite Hk in *. by apply round1_tenths.
Qed.

Lemma matches_loop_ok idx ps acc r :
  matches_loop idx ps acc = Ok r →
  ∃ new, r = acc ++ new ∧ Forall (λ om, (92 <= matched_score om)%Q) new.
Proof.
  revert acc. induction ps as [|p ps IH]; intros acc; simpl.
  { intros [= <-]. exists []. by rewrite app_nil_r. }
  destruct (fuzzy_match p idx 92) as [[[[bn sc] e]|]|] eqn:Hm; simpl; [| |done].
  - intros Hr. apply IH in Hr as (new & -> & Hall).
    eexists. rewrite <- app_assoc. split; [done|]. constructor; [|done].
    simpl. apply (fuzzy_match_floor p idx 92 920 _ eq_refl) in Hm; [done|].
    by compute.
  - apply IH.
Qed.

Lemma matches_loop_total idx ps acc :
  (∀ p, ∃ r, fuzzy_match p idx 92 = Ok r) →
  ∃ r, matches_loop idx ps acc = Ok r.
Proof.
  intros Htot. revert acc. induction ps as [|p ps IH]; intros acc; simpl.
  { by eexists. }
  destruct (Htot p) as [[[[bn sc] e]|] ->]; simpl; apply IH.
Qed.

Lemma mentions_loop_shape idx now raw seen out :
  match mentions_loop str_lower ents idx now raw seen out with
  | (seen', Ok out') =>
      seen' = seen ∪ list_to_set (item_id <$> raw)
      ∧ ∃ new, out' = out ++ new
               ∧ NoDup (mention_id <$> new)
               ∧ Forall (λ m, mention_id m ∉ seen ∧ mention_ok m
                              ∧ processed_utc m = now ∧ raw_item m ∈ raw) new
  | (seen', IndexError) => seen ⊆ seen'
  end.
Proof.
  revert seen out. induction raw as [|item rest IH]; intros seen out.
  { simpl. split; [set_solver|]. exists []. rewrite app_nil_r.
    split; [done|]. split; constructor. }
  cbn [mentions_loop]. case_bool_decide as Hseen.
  - specialize (IH seen out).
    destruct (mentions_loop _ _ _ _ rest seen out) as [seen' [out'|]]; [|done].
    destruct IH as (-> & new & -> & Hnd & Hall).
    split; [rewrite fmap_cons; set_solver|].
    exists new. split; [done|]. split; [done|].
    eapply Forall_impl; [done|]. cbv beta. intros m (? & ? & ? & ?).
    split; [done|]. split; [done|]. split; [done|]. by right.
  - destruct (matches_loop idx _ []) as [matches|] eqn:Hm; [|done].
    apply matches_loop_ok in Hm as (new0 & Hm0 & Hscores). simpl in Hm0. subst new0.
    set (m0 := {| raw_item := item;
                  persons := extract_persons str_lower ents (item_text item);
                  ofac_matches := matches;
                  has_ofac_match := bool_decide (matches ≠ []);
                  processed_utc := now |}).
    specialize (IH (seen ∪ {[item_id item]}) (out ++ [m0])).
    destruct (mentions_loop _ _ _ _ rest _ _) as [seen' [out'|]]; [|set_solver].
    destruct IH as (-> & new & -> & Hnd & Hall).
    split; [rewrite fmap_cons; set_solver|].
    exists (m0 :: new). rewrite <- app_assoc. split; [done|]. split; [|constructor].
    + rewrite fmap_cons. constructor; [|done].
      intros Hin. apply list_elem_of_fmap in Hin as (m & Hid & Hm).
      eapply Forall_forall in Hall as (Hno & _); [|done].
      apply Hno. rewrite <- Hid. set_solver.
    + split; [done|]. split; [by split|]. split; [done | left].
    + eapply Forall_impl; [done|]. cbv beta. intros m (Hno & ? & ? & ?).
      split; [set_solver|]. split; [done|]. split; [done|]. by right.
Qed.

Lemma mentions_loop_total idx now raw seen out :
  (∀ p, ∃ r, fuzzy_match p idx 92 = Ok r) →
  ∃ seen' out', mentions_loop str_lower ents idx now raw seen out
                = (seen', Ok out').
Proof.
  intros Htot. revert seen out. induction raw as [|item rest IH]; intros seen out.
  { simpl. by eexists _, _. }
  cbn [mentions_loop]. case_bool_decide; [apply IH|].
  destruct (matches_loop_total idx
              (extract_persons str_lower ents (item_text item)) [] Htot) as [r ->].
  apply IH.
Qed.

End MentionsLemmas.

Section MentionsFacts.
Context `{Platform}.
Context (str_lower : str → str) (ents : str → list (str * str)).
Context (API_RESULTS_LIMIT : Z).

(** X28: a run of the mentions job keeps the state well formed: no mention
    is stored twice, every stored mention is marked as seen, a mention is
    flagged exactly when it has a match and every recorded match scores 92 or
    more; ids once seen stay seen; with a bound that is not negative the
    store never grows beyond the larger of the bound and its former size;
    when the run fails the stored mentions are left as they were; and over a
    built index the run never fails. *)
Theorem refresh_mentions_keeps_state (raw : list RawItem) (now : str)
    (st : State) :
  state_ok st →
  let st' := refresh_mentions str_lower ents API_RESULTS_LIMIT raw now st in
  state_ok st'
  ∧ seen_ids st ⊆ seen_ids st'
  ∧ ((0 ≤ API_RESULTS_LIMIT)%Z →
     (Z.of_nat (length (mentions st'))
      ≤ Z.max API_RESULTS_LIMIT (Z.of_nat (length (mentions st))))%Z)
  ∧ (last_error st' = None →
     seen_ids st' = seen_ids st ∪ list_to_set (item_id <$> raw)
     ∧ last_mentions_run_utc st' = Some now)
  ∧ (last_error st' ≠ None →
     mentions st' = mentions st
     ∧ last_mentions_run_utc st' = last_mentions_run_utc st)
  ∧ (iter_tokens_faithful → iter_ids_faithful →
     (∃ es, ofac_index st = build_ofac_name_index es) → last_error st' = None).
Proof.
  intros (Hnd & Hseen & Hok) st'. unfold st', refresh_mentions.
  pose proof (mentions_loop_shape str_lower ents (ofac_index st) now raw
                (seen_ids st) []) as Hshape.
  assert (iter_tokens_faithful → iter_ids_faithful →
          (∃ es, ofac_index st = build_ofac_name_index es) →
          ∃ seen' out', mentions_loop str_lower ents (ofac_index st) now raw
                          (seen_ids st) [] = (seen', Ok out')) as Htotal.
  { intros Htok Hids [es Hes]. apply mentions_loop_total. intros p.
    rewrite Hes. apply fuzzy_match_total. by apply built_ids_in_range. }
  destruct (mentions_loop _ _ _ _ raw _ _) as [seen' [out'|]].
  - destruct Hshape as (-> & new & Hout & Hnd' & Hall). simpl in Hout. subst out'.
    cbn [mentions seen_ids last_error last_mentions_run_utc].
    assert (state_ok {| ofac_index := ofac_index st;
                        mentions := new ++ mentions st;
                        seen_ids := seen_ids st ∪ list_to_set (item_id <$> raw);
                        last_mentions_run_utc := Some now;
                        last_error := None |}) as (Hnd2 & Hseen2 & Hok2).
    { unfold state_ok. cbn [mentions seen_ids]. split; [|split].
      - rewrite fmap_app. apply NoDup_app. split; [done|]. split; [|done].
        intros i Hi Hi'. apply list_elem_of_fmap in Hi as (m & -> & Hm).
        eapply Forall_forall in Hall as (Hno & _); [|done].
        apply list_elem_of_fmap in Hi' as (m' & Hid & Hm').
        eapply Forall_forall in Hseen; [|done]. apply Hno. by rewrite Hid.
      - apply Forall_app. split.
        + apply Forall_forall. intros m Hm.
          eapply Forall_forall in Hall as (_ & _ & _ & Hraw); [|done].
          apply elem_of_union. right. apply elem_of_list_to_set.
          apply list_elem_of_fmap. by exists (raw_item m).
        + eapply Forall_impl; [exact Hseen|]. cbv beta.
          intros m Hm. apply elem_of_union. by left.
      - apply Forall_app. split; [|done].
        eapply Forall_impl; [exact Hall|]. cbv beta. by intros m (_ & ? & _). }
    cbn [mentions seen_ids] in Hnd2, Hseen2, Hok2.
    split; [|split; [set_solver|split; [|split; [done|split; [done|done]]]]].
    + unfold state_ok. cbn [mentions seen_ids]. case_bool_decide as Hnew.
      * subst new. simpl in *. done.
      * destruct (slice_to_sublist API_RESULTS_LIMIT (new ++ mentions st))
          as [k ->].
        split; [|split].
        -- eapply sublist_NoDup; [exact Hnd2|].
           apply fmap_sublist, sublist_take.
        -- by apply Forall_take.
        -- by apply Forall_take.
    + intros Hlim. case_bool_decide; [lia|].
      pose proof (slice_to_length API_RESULTS_LIMIT (new ++ mentions st) Hlim). lia.
  - cbn [mentions seen_ids last_error last_mentions_run_utc].
    split; [|split; [done|split; [lia|split; [done|split; [done|]]]]].
    + unfold state_ok. cbn [mentions seen_ids]. split; [done|]. split; [|done].
      eapply Forall_impl; [exact Hseen|]. cbv beta. intros m Hm. by apply Hshape.
    + intros Htok Hids Hes.
      destruct (Htotal Htok Hids Hes) as (? & ? & [=]).
Qed.

(** X29: [api_results] returns mentions of the store in their order, at
    most [max(1, min(limit, API_RESULTS_LIMIT))] of them, so one mention can
    still come back when the configured bound is zero or negative; and with
    [only_ofac] set, only flagged mentions. *)
Theorem api_results_bounded (st : State) (only_ofac limit : Z) :
  api_results API_RESULTS_LIMIT st only_ofac limit `sublist_of` mentions st
  ∧ (Z.of_nat (length (api_results API_RESULTS_LIMIT st only_ofac limit))
     ≤ Z.max 1 (Z.min limit API_RESULTS_LIMIT))%Z
  ∧ (only_ofac ≠ 0%Z →
     Forall (λ m, has_ofac_match m = true)
            (api_results API_RESULTS_LIMIT st only_ofac limit))
  ∧ (only_ofac = 0%Z →
     api_results API_RESULTS_LIMIT st only_ofac limit
     = take (Z.to_nat (Z.max 1 (Z.min limit API_RESULTS_LIMIT))) (mentions st)).
Proof.
  unfold api_results.
  set (lim := Z.max 1 (Z.min limit API_RESULTS_LIMIT)).
  assert (0 ≤ lim)%Z as Hlim by (unfold lim; lia).
  unfold slice_to. rewrite bool_decide_eq_true_2 by done.
  split; [|split; [|split]].
  - etransitivity; [apply sublist_take|].
    case_bool_decide; [apply sublist_filter | done].
  - rewrite length_take. lia.
  - intros Hne. rewrite bool_decide_eq_true_2 by done.
    apply Forall_take, Forall_forall. intros m Hm.
    by apply list_elem_of_filter in Hm as [? _].
  - intros ->. by rewrite bool_decide_eq_false_2 by (intros Hne; by apply Hne).
Qed.

End MentionsFacts.

(** * The properties at work on the sample platform *)

Section Examples.
#[local] Existing Instance Sample.platform.


Lemma normalize_name_idempotent_witness :
  nfkd_decomposes_enye ∧ ascii_stable
  ∧ normalize_name (normalize_name pena) = normalize_name pena
  ∧ canonical (normalize_name pena).
Proof.
  split; [exact sample_nfkd|]. split; [exact sample_ascii|].
  exact (normalize_name_idempotent pena sample_nfkd sample_ascii).
Defined.

Lemma entity_stopwords_reachable_witness :
  nfkd_decomposes_enye
  ∧ Forall (λ t, t ∉ unreachable_stopwords)
           (tokenize_name (normalize_name (lit "Banco S.A.")))
  ∧ looks_like_entity (tokenize_name (normalize_name (lit "Banco S.A."))) = true.
Proof.
  split; [exact sample_nfkd|].
  destruct (entity_stopwords_reachable (lit "Banco S.A.") sample_nfkd)
    as (_ & Hr & _).
  split; [exact Hr | by vm_compute].
Defined.

Lemma postings_exact_witness :
  iter_tokens_faithful
  ∧ (∀ t i, i ∈ posting (build_ofac_name_index roster) t ↔
            3 ≤ length t
            ∧ ∃ it, items (build_ofac_name_index roster) !! i = Some it
                    ∧ t ∈ tokens it)
  ∧ posting (build_ofac_name_index roster) (lit "PETRO") = {[0]}
  ∧ posting (build_ofac_name_index roster) (lit "AL") = ∅.
Proof.
  split; [exact sample_iter_tokens|].
  split; [exact (proj1 (postings_exact roster sample_iter_tokens))|].
  split; by vm_compute.
Defined.

Lemma candidate_ids_bounds_witness :
  iter_tokens_faithful ∧ iter_ids_faithful
  ∧ (∀ i, i ∈ _candidate_ids_for_query [lit "PETRO"; lit "GUSTAVO"]
                (build_ofac_name_index roster) 5000 →
          ∃ t, t ∈ [lit "PETRO"; lit "GUSTAVO"] ∧ 3 ≤ length t
               ∧ i ∈ posting (build_ofac_name_index roster) t)
  ∧ _candidate_ids_for_query [lit "PETRO"; lit "GUSTAVO"]
      (build_ofac_name_index roster) 5000 = [0].
Proof.
  split; [exact sample_iter_tokens|]. split; [exact sample_iter_ids|].
  split; [|by vm_compute].
  exact (proj1 (candidate_ids_bounds [lit "PETRO"; lit "GUSTAVO"]
                  (build_ofac_name_index roster) 5000
                  sample_iter_tokens sample_iter_ids)).
Defined.

Lemma lookups_never_fail_on_built_index_witness :
  iter_tokens_faithful ∧ iter_ids_faithful
  ∧ (∃ r, fuzzy_match (lit "Petro Gustavo") (build_ofac_name_index roster) 92
          = Ok r)
  ∧ (∃ l, fuzzy_top_matches (lit "Petro Gustavo") (build_ofac_name_index roster)
            10 80 = Ok l).
Proof.
  split; [exact sample_iter_tokens|]. split; [exact sample_iter_ids|].
  exact (lookups_never_fail_on_built_index roster (lit "Petro Gustavo") 10 92
           sample_iter_tokens sample_iter_ids).
Defined.

Lemma short_tokens_never_match_witness :
  iter_tokens_faithful
  ∧ Forall (λ t, length t < 3) (tokenize_name (normalize_name (lit "Al Bo")))
  ∧ mp (build_ofac_name_index roster) !! normalize_name (lit "Al Bo")
    = Some (Sample.named "AL BO")
  ∧ fuzzy_top_matches (lit "Al Bo") (build_ofac_name_index roster) 10 80 = Ok [].
Proof.
  assert (Forall (λ t, length t < 3) (tokenize_name (normalize_name (lit "Al Bo"))))
    as Hshort by (vm_compute; repeat constructor).
  split; [exact sample_iter_tokens|]. split; [exact Hshort|].
  split; [by vm_compute|].
  exact (proj1 (short_tokens_never_match (build_ofac_name_index roster)
                  (lit "Al Bo") 10 80 sample_iter_tokens Hshort)).
Defined.



Lemma best_is_head_of_ranking_witness :
  fuzzy_match (lit "Petro Gustavo") (build_ofac_name_index roster) 10
  = Ok (Some (lit "PETRO URREGO GUSTAVO FRANCISCO", (105 # 10)%Q,
              Sample.named "PETRO URREGO, GUSTAVO FRANCISCO"))
  ∧ mp (build_ofac_name_index roster) !! normalize_name (lit "Petro Gustavo") = None
  ∧ ∃ m' rest,
      fuzzy_top_matches (lit "Petro Gustavo") (build_ofac_name_index roster) 10 10
      = Ok (m' :: rest)
      ∧ (m'.1.2 == 105 # 10)%Q.
Proof.
  assert (fuzzy_match (lit "Petro Gustavo") (build_ofac_name_index roster) 10
          = Ok (Some (lit "PETRO URREGO GUSTAVO FRANCISCO", (105 # 10)%Q,
                      Sample.named "PETRO URREGO, GUSTAVO FRANCISCO"))) as Hm
    by (by vm_compute).
  assert (mp (build_ofac_name_index roster) !! normalize_name (lit "Petro Gustavo")
          = None) as Hmp by (by vm_compute).
  split; [exact Hm|]. split; [exact Hmp|].
  exact (best_is_head_of_ranking (build_ofac_name_index roster)
           (lit "Petro Gustavo") 10 10 _ Hm Hmp).
Defined.


Lemma exact_match_determinism_witness :
  Sample.named "AL BO" ∈ roster
  ∧ indexable (Sample.named "AL BO")
  ∧ normalize_name (lit " al  bo ") = normalize_name (lit "AL BO")
  ∧ ∃ e', head (filter (λ x, normalize_name (default [] (name x))
                             = normalize_name (lit " al  bo "))
                       (filter indexable roster)) = Some e'
          ∧ fuzzy_match (lit " al  bo ") (build_ofac_name_index roster) 150
            = Ok (Some (normalize_name (lit " al  bo "), 100%Q, e')).
Proof.
  assert (Sample.named "AL BO" ∈ roster) as Hin by (right; left).
  assert (indexable (Sample.named "AL BO")) as Hidx by (by vm_compute).
  assert (normalize_name (lit " al  bo ") = normalize_name (lit "AL BO")) as Hn
    by (by vm_compute).
  split; [exact Hin|]. split; [exact Hidx|]. split; [exact Hn|].
  exact (exact_match_determinism roster (Sample.named "AL BO") (lit " al  bo ")
           150 Hin Hidx Hn).
Defined.

Lemma threshold_monotone_witness :
  (10 <= 92)%Q
  ∧ ∃ l1 l2,
      fuzzy_top_matches (lit "Petro Gustavo") (build_ofac_name_index roster) 10 10
      = Ok l1
      ∧ fuzzy_top_matches (lit "Petro Gustavo") (build_ofac_name_index roster) 10 92
        = Ok l2
      ∧ length l2 ≤ length l1.
Proof.
  assert (10 <= 92)%Q as Hle by (by compute).
  split; [exact Hle|].
  pose proof (built_ids_in_range roster (query_tokens (lit "Petro Gustavo")) 5000
                sample_iter_tokens sample_iter_ids) as Hr.
  destruct (fuzzy_top_matches_total (lit "Petro Gustavo")
              (build_ofac_name_index roster) 10 10 Hr) as [l1 H1].
  destruct (fuzzy_top_matches_total (lit "Petro Gustavo")
              (build_ofac_name_index roster) 10 92 Hr) as [l2 H2].
  pose proof (threshold_monotone (build_ofac_name_index roster)
                (lit "Petro Gustavo") 10 10 92 Hle) as Hm.
  rewrite H1, H2 in Hm. exists l1, l2.
  split; [exact H1|]. split; [exact H2 | exact Hm].
Defined.

Lemma single_token_rejection_witness :
  length (tokenize_name (normalize_name (lit "Petro"))) < 2
  ∧ fuzzy_top_matches (lit "Petro") (build_ofac_name_index roster) 10 80 = Ok []
  ∧ fuzzy_match (lit "Petro") (build_ofac_name_index roster) 0 = Ok None.
Proof.
  assert (length (tokenize_name (normalize_name (lit "Petro"))) < 2) as Hlen
    by (vm_compute; lia).
  destruct (single_token_rejection (build_ofac_name_index roster) (lit "Petro")
              10 80 Hlen) as (Htop & _).
  destruct (single_token_rejection (build_ofac_name_index roster) (lit "Petro")
              10 0 Hlen) as (_ & Hbest & _).
  split; [exact Hlen|]. split; [exact Htop|]. apply Hbest. by vm_compute.
Defined.

Lemma api_search_ofac_answer_witness :
  api_search_ofac (build_ofac_name_index (Sample.named "PETRO GUSTAVO" :: roster))
    (lit " petro gustavo ") 0
  = Ok [ {| ofac_name := lit "PETRO GUSTAVO"; score := (1030 # 10)%Q;
            hit_uid := None; hit_type := None |} ]
  ∧ (1 ≤ Z.max 1 (Z.min 0 50))%Z
  ∧ Forall (λ h, (80 <= score h)%Q)
      [ {| ofac_name := lit "PETRO GUSTAVO"; score := (1030 # 10)%Q;
           hit_uid := None; hit_type := None |} ].
Proof.
  assert (api_search_ofac
            (build_ofac_name_index (Sample.named "PETRO GUSTAVO" :: roster))
            (lit " petro gustavo ") 0
          = Ok [ {| ofac_name := lit "PETRO GUSTAVO"; score := (1030 # 10)%Q;
                    hit_uid := None; hit_type := None |} ]) as Hh
    by (vm_compute; reflexivity).
  destruct (api_search_ofac_answer _ _ _ _ Hh) as (Hlen & _ & _ & Hall).
  split; [exact Hh|]. split; [exact Hlen|].
  eapply Forall_impl; [exact Hall|]. intros h Hh'. exact (proj1 Hh').
Defined.

Lemma api_search_ofac_always_answers_witness :
  iter_tokens_faithful ∧ iter_ids_faithful
  ∧ (∃ hits, api_search_ofac (build_ofac_name_index roster) (lit "Petro Gustavo") 20
             = Ok hits)
  ∧ api_search_ofac (build_ofac_name_index roster) [SPACE; 9%N] 20 = Ok [].
Proof.
  destruct (api_search_ofac_always_answers roster (lit "Petro Gustavo") 20
              sample_iter_tokens sample_iter_ids) as (Hans & _).
  destruct (api_search_ofac_always_answers roster [SPACE; 9%N] 20
              sample_iter_tokens sample_iter_ids) as (_ & Hblank & _).
  split; [exact sample_iter_tokens|]. split; [exact sample_iter_ids|].
  split; [exact Hans|]. apply Hblank. by repeat constructor.
Defined.

End Examples.

Section Examples2.
#[local] Existing Instance Sample.platform.

Lemma blocking_against_brute_force_witness :
  iter_tokens_faithful ∧ iter_ids_faithful
  ∧ (∀ m, m ∈ ranked (lit "Petro Gustavo") (build_ofac_name_index roster) 10 →
          m ∈ brute_force_scan (lit "Petro Gustavo")
                (build_ofac_name_index roster) 10)
  ∧ ranked (lit "Petro Gustavo") (build_ofac_name_index roster) 10
    = brute_force_scan (lit "Petro Gustavo") (build_ofac_name_index roster) 10
  ∧ ranked (lit "Al Bo") (build_ofac_name_index roster) 80 = []
  ∧ brute_force_scan (lit "Al Bo") (build_ofac_name_index roster) 80
    = [(lit "AL BO", (1030 # 10)%Q, Sample.named "AL BO")].
Proof.
  split; [exact sample_iter_tokens|]. split; [exact sample_iter_ids|].
  split; [|repeat split; by vm_compute].
  exact (proj1 (blocking_against_brute_force roster (lit "Petro Gustavo") 10
                  sample_iter_tokens sample_iter_ids)).
Defined.

(** The reader on the sample document. *)
Example parse_sdn_xml_sample :
  parse_sdn_xml sample_document
  = [ {| uid := Some (lit "7"); name := Some (lit "BANCO NACIONAL");
         type := Some (lit "Entity"); remarks := None |};
      {| uid := Some (lit "36"); name := Some (lit "PETRO URREGO, Gustavo");
         type := None; remarks := None |} ].
Proof. by vm_compute. Qed.

(** From the document to a lookup. *)
Example parse_build_search_sample :
  api_search_ofac (build_ofac_name_index (parse_sdn_xml sample_document))
    (lit "petro urrego gustavo") 5
  = Ok [ {| ofac_name := lit "PETRO URREGO GUSTAVO"; score := (1030 # 10)%Q;
            hit_uid := Some (lit "36"); hit_type := None |} ].
Proof. by vm_compute. Qed.

Example clip_excel_sample :
  _clip_excel (Some (lit "a" ++ [CR; LF] ++ lit "b" ++ [CR] ++ lit "cdef")) 5
  = lit "a" ++ [LF] ++ lit "b" ++ [LF] ++ lit "c"
  ∧ _clip_excel None 32767 = [EM_DASH]
  ∧ _clip_excel (Some (lit "abcdef")) (-2) = lit "abcd".
Proof. repeat split; by vm_compute. Qed.

End Examples2.

Section Examples3.
#[local] Existing Instance Sample.platform.

Lemma refresh_mentions_keeps_state_witness :
  state_ok sample_state
  ∧ state_ok (refresh_mentions sample_lower sample_ents 300
                [sample_item; sample_item] (lit "t1") sample_state)
  ∧ mentions (refresh_mentions sample_lower sample_ents 300
                [sample_item; sample_item] (lit "t1") sample_state)
    = [ {| raw_item := sample_item;
           persons := [lit "Petro Gustavo"];
           ofac_matches :=
             [ {| candidate := lit "Petro Gustavo";
                  matched_name := lit "PETRO GUSTAVO";
                  matched_score := 100%Q;
                  matched_uid := None; matched_type := None |} ];
           has_ofac_match := true;
           processed_utc := lit "t1" |} ].
Proof.
  assert (state_ok sample_state) as H0 by (repeat split; constructor).
  pose proof (refresh_mentions_keeps_state sample_lower sample_ents 300
                [sample_item; sample_item] (lit "t1") sample_state H0) as Hx.
  cbv zeta in Hx. destruct Hx as (H1 & _).
  split; [exact H0|]. split; [exact H1|]. by vm_compute.
Defined.

End Examples3.
